(** * Mobius-strip.py: mesh, surface area and edge length of a Moebius strip

    A shallow embedding of [src/Mobius-strip.py] (class [MobiusStrip]) and the
    properties of its constructor, [get_mesh], [compute_surface_area] and
    [compute_edge_length].

    Numbers.  The program computes on IEEE binary64 floats through numpy.
    This development reads every float as the real number it stands for
    (Stdlib [R]), so rounding, overflow, [inf] and [nan] are outside the
    model; what is modelled exactly is the shape of the arrays, the order of
    the two trapezoidal integrations, the Python exceptions ([int] division
    by zero, numpy's rejection of a negative sample count) and which fields
    of the object each method reads or writes.  The resolution [n] is a
    Python [int], embedded as [Z].

    Where rounding, overflow or underflow decide what the program returns,
    module [B64] transcribes the same lines over binary64 (the kernel's
    primitive floats) and evaluates them; [cos] and [sin] are tabulated
    there at the arguments the grids of resolution 2 and 3 reach. *)

From Stdlib Require Import Reals Lra Lia ZArith List Psatz.
From Corelib Require PrimFloat.
Import ListNotations.
Open Scope R_scope.

(** A Python [float], read as the real number it denotes.  (The class names
    its radius [R], which hides the Stdlib name of the type.) *)
Abbreviation float := R (only parsing).

(** ** Python exceptions and results *)

Inductive exn : Type :=
| ValueError          (* numpy: "Number of samples, %s, must be non-negative." *)
| ZeroDivisionError.  (* Python: float division by zero *)

Inductive result (A : Type) : Type :=
| Ok (a : A)
| Raise (e : exn).
Arguments Ok {A} a.
Arguments Raise {A} e.

(** Python's [a / b] for a float [a] and an int [b]. *)
Definition py_div (a : float) (b : Z) : result float :=
  if (b =? 0)%Z then Raise ZeroDivisionError else Ok (a / IZR b).

(** ** The numpy operations the class calls *)

Module np.

Definition ndarray1 := list float.
Definition ndarray2 := list (list float).   (* row major: [a[i][j]] is row i, column j *)

Definition pi : float := PI.

(** [y[-1] = stop] *)
Definition set_last (stop : float) (y : ndarray1) : ndarray1 :=
  match y with
  | [] => []
  | _ :: _ => removelast y ++ [stop]
  end.

(** [np.linspace(start, stop, num)] with [endpoint=True]:
    [arange(0, num) * step + start], the last sample overwritten by [stop]
    when [num > 1]; a negative [num] is rejected.  With fewer than two
    samples there is no step and numpy multiplies by [delta] instead.
    (For a zero step numpy divides by [div] before multiplying by [delta],
    against denormals; over the reals that is the same number.) *)
Definition linspace (start stop : float) (num : Z) : result ndarray1 :=
  if (num <? 0)%Z then Raise ValueError
  else
    let div := (num - 1)%Z in
    let delta := stop - start in
    let y := map INR (seq 0 (Z.to_nat num)) in
    let y := if (0 <? div)%Z
             then let step := delta / IZR div in map (fun k => k * step) y
             else map (fun k => k * delta) y in
    let y := map (fun k => k + start) y in
    Ok (if (1 <? num)%Z then set_last stop y else y).

(** [np.meshgrid(x, y)] (default [indexing='xy']): both results have
    [len(y)] rows and [len(x)] columns, [X[i][j] = x[j]], [Y[i][j] = y[i]]. *)
Definition meshgrid (x y : ndarray1) : ndarray2 * ndarray2 :=
  (map (fun _ => x) y, map (fun yi => map (fun _ => yi) x) y).

(** Elementwise combination of two arrays of one shape. *)
Fixpoint zip_with {A B C : Type} (f : A -> B -> C) (a : list A) (b : list B) : list C :=
  match a, b with
  | x :: a', y :: b' => f x y :: zip_with f a' b'
  | _, _ => []
  end.

(** A chain of numpy's elementwise operators over the same-shaped arrays
    [u] and [v] is the elementwise application of the scalar expression.
    (The class only ever combines [U] and [V], which [meshgrid] makes of one
    shape; on arrays of different shapes numpy broadcasts or raises, which
    this does not model.) *)
Definition elementwise2 (f : float -> float -> float) (u v : ndarray2) : ndarray2 :=
  zip_with (zip_with f) u v.

(** [y.sum()]; the order of the additions does not matter over the reals. *)
Definition sum (y : ndarray1) : float := fold_right Rplus 0 y.

Definition ncols (y : ndarray2) : nat :=
  match y with
  | [] => O
  | r :: _ => length r
  end.

(** [y.sum(axis=0)] for an array with [k] columns. *)
Definition sum_axis0 (k : nat) (y : ndarray2) : ndarray1 :=
  fold_right (zip_with Rplus) (repeat 0 k) y.

(** [np.trapz(y, dx=d)] on a 1-D array:
    [(d * (y[1:] + y[:-1]) / 2.0).sum()]. *)
Definition trapz (y : ndarray1) (dx : float) : float :=
  sum (zip_with (fun a b => dx * (a + b) / 2) (tl y) (removelast y)).

(** [np.trapz(y, dx=d, axis=0)] on a 2-D array: the same slices taken
    along the rows, summed along axis 0. *)
Definition trapz_axis0 (y : ndarray2) (dx : float) : ndarray1 :=
  sum_axis0 (ncols y)
    (zip_with (zip_with (fun a b => dx * (a + b) / 2)) (tl y) (removelast y)).

End np.

(** ** The class [MobiusStrip] *)

Definition Mesh : Type := np.ndarray2 * np.ndarray2 * np.ndarray2.

Record MobiusStrip : Type := mkMobiusStrip {
  self_R : float;
  self_w : float;
  self_n : Z;
  self_u : np.ndarray1;
  self_v : np.ndarray1;
  self_U : np.ndarray2;
  self_V : np.ndarray2;
  self_mesh : option Mesh
}.

(** Methods run on the object and may raise: a state and error monad over
    [self].  The object survives an exception. *)
Definition method (A : Type) : Type := MobiusStrip -> result A * MobiusStrip.

Definition ret {A : Type} (a : A) : method A := fun self => (Ok a, self).

Definition bind {A B : Type} (m : method A) (f : A -> method B) : method B :=
  fun self =>
    match m self with
    | (Ok a, self') => f a self'
    | (Raise e, self') => (Raise e, self')
    end.

(** Read an attribute: [self.f]. *)
Definition attr {A : Type} (f : MobiusStrip -> A) : method A :=
  fun self => (Ok (f self), self).

(** An expression that may raise and does not touch [self]. *)
Definition lift {A : Type} (r : result A) : method A := fun self => (r, self).

(** [self.mesh = m] *)
Definition set_mesh (m : Mesh) : method unit :=
  fun self =>
    (Ok tt, mkMobiusStrip (self_R self) (self_w self) (self_n self)
              (self_u self) (self_v self) (self_U self) (self_V self) (Some m)).

Notation "x <- m ;; k" := (bind m (fun x => k))
  (at level 61, m at next level, right associativity).

(** [_generate_mesh] (lines 26-32). *)
Definition _generate_mesh : method unit :=
  u <- attr self_U ;;
  v <- attr self_V ;;
  R <- attr self_R ;;
  let x := np.elementwise2 (fun u v => (R + v * cos (u / 2)) * cos u) u v in
  let y := np.elementwise2 (fun u v => (R + v * cos (u / 2)) * sin u) u v in
  let z := np.elementwise2 (fun u v => v * sin (u / 2)) u v in
  set_mesh (x, y, z).

(** [__init__] (lines 8-24): either numpy rejects the sample count and no
    object exists, or the object is returned with its mesh generated. *)
Definition __init__ (R w : float) (n : Z) : result MobiusStrip :=
  match np.linspace 0 (2 * np.pi) n with
  | Raise e => Raise e
  | Ok u =>
    match np.linspace (- w / 2) (w / 2) n with
    | Raise e => Raise e
    | Ok v =>
      let '(U, V) := np.meshgrid u v in
      let self := mkMobiusStrip R w n u v U V None in
      match _generate_mesh self with
      | (Ok _, self') => Ok self'
      | (Raise e, _) => Raise e
      end
    end
  end.

(** [get_mesh] (lines 34-36). *)
Definition get_mesh : method (option Mesh) := attr self_mesh.

(** The surface element of [compute_surface_area] at one cell
    (lines 54-68); the positions [x], [y], [z] of lines 49-51 are computed
    by the source and not used. *)
Definition surface_element (R u v : float) : float :=
  let x_u := - (R + v * cos (u / 2)) * sin u - (v / 2) * sin (u / 2) * cos u in
  let y_u := (R + v * cos (u / 2)) * cos u - (v / 2) * sin (u / 2) * sin u in
  let z_u := (v / 2) * cos (u / 2) in
  let x_v := cos (u / 2) * cos u in
  let y_v := cos (u / 2) * sin u in
  let z_v := sin (u / 2) in
  sqrt ((y_u * z_v - z_u * y_v) ^ 2 +
        (z_u * x_v - x_u * z_v) ^ 2 +
        (x_u * y_v - y_u * x_v) ^ 2).

(** [compute_surface_area] (lines 38-72). *)
Definition compute_surface_area : method float :=
  u <- attr self_U ;;
  v <- attr self_V ;;
  n <- attr self_n ;;
  du <- lift (py_div (2 * np.pi) (n - 1)) ;;
  w <- attr self_w ;;
  dv <- lift (py_div w (n - 1)) ;;
  R <- attr self_R ;;
  let integrand := np.elementwise2 (surface_element R) u v in
  let area := np.trapz (np.trapz_axis0 integrand dv) du in
  ret area.

(** The arc-length integrand of [compute_edge_length] at one sample
    (lines 92-99); [x], [y], [z] of lines 87-89 are computed and not used. *)
Definition arc_element (R v u : float) : float :=
  let dx_du := - (R + v * cos (u / 2)) * sin u - (v / 2) * sin (u / 2) * cos u in
  let dy_du := (R + v * cos (u / 2)) * cos u - (v / 2) * sin (u / 2) * sin u in
  let dz_du := (v / 2) * cos (u / 2) in
  sqrt (dx_du ^ 2 + dy_du ^ 2 + dz_du ^ 2).

(** One turn of the loop body (lines 87-100): the length of the edge at [v]. *)
Definition edge_length_at (R : float) (u : np.ndarray1) (du v : float) : float :=
  let integrand := map (arc_element R v) u in
  np.trapz integrand du.

(** The two values [length] takes in the loop, in order. *)
Definition edge_lengths (R w : float) (u : np.ndarray1) (du : float) : list float :=
  let v_edges := [w / 2; - w / 2] in
  map (edge_length_at R u du) v_edges.

(** [compute_edge_length] (lines 74-103): [total_length] starts at 0 and
    each turn adds its [length]. *)
Definition compute_edge_length : method float :=
  u <- attr self_u ;;
  n <- attr self_n ;;
  du <- lift (py_div (2 * np.pi) (n - 1)) ;;
  w <- attr self_w ;;
  R <- attr self_R ;;
  let total_length := fold_left Rplus (edge_lengths R w u du) 0 in
  ret total_length.

(** ** What the specification says the two estimators compute *)

Module Spec.

(** Sum of [f 0 .. f (k-1)]. *)
Fixpoint big_sum (f : nat -> float) (k : nat) : float :=
  match k with
  | O => 0
  | S k' => big_sum f k' + f k'
  end.

(** Composite trapezoidal rule on the [m+1] equally spaced samples
    [f 0 .. f m] with spacing [h]: half weight at both ends. *)
Definition composite_trapezoid (h : float) (f : nat -> float) (m : nat) : float :=
  h * (f O / 2 + big_sum (fun k => f (S k)) (m - 1) + f m / 2).

Definition du (n : Z) : float := 2 * PI / IZR (n - 1).
Definition dv (w : float) (n : Z) : float := w / IZR (n - 1).

(** Grid nodes: [u_j] over [0, 2 pi], [v_i] over [-w/2, w/2]. *)
Definition u_node (n : Z) (j : nat) : float := INR j * du n.
Definition v_node (w : float) (n : Z) (i : nat) : float := - w / 2 + INR i * dv w n.

(** Position, section 4.1. *)
Definition x (R u v : float) : float := (R + v * cos (u / 2)) * cos u.
Definition y (R u v : float) : float := (R + v * cos (u / 2)) * sin u.
Definition z (u v : float) : float := v * sin (u / 2).

(** Analytic partials, section 4.1. *)
Definition x_u (R u v : float) : float :=
  - (R + v * cos (u / 2)) * sin u - (v / 2) * sin (u / 2) * cos u.
Definition y_u (R u v : float) : float :=
  (R + v * cos (u / 2)) * cos u - (v / 2) * sin (u / 2) * sin u.
Definition z_u (u v : float) : float := (v / 2) * cos (u / 2).
Definition x_v (u : float) : float := cos (u / 2) * cos u.
Definition y_v (u : float) : float := cos (u / 2) * sin u.
Definition z_v (u : float) : float := sin (u / 2).

(** Area element, section 4.3. *)
Definition area_integrand (R u v : float) : float :=
  sqrt ((y_u R u v * z_v u - z_u u v * y_v u) ^ 2 +
        (z_u u v * x_v u - x_u R u v * z_v u) ^ 2 +
        (x_u R u v * y_v u - y_u R u v * x_v u) ^ 2).

(** Nested rule of section 4.3: along [v] for each [u_j], then along [u]. *)
Definition surface_area (R w : float) (n : Z) : float :=
  let m := Z.to_nat (n - 1) in
  composite_trapezoid (du n)
    (fun j => composite_trapezoid (dv w n)
                (fun i => area_integrand R (u_node n j) (v_node w n i)) m)
    m.

(** Arc-length integrand at a fixed boundary [v], section 4.4. *)
Definition arc_integrand (R v u : float) : float :=
  sqrt (x_u R u v ^ 2 + y_u R u v ^ 2 + z_u u v ^ 2).

(** Length of the boundary curve at [v]. *)
Definition edge_length (R : float) (n : Z) (v : float) : float :=
  composite_trapezoid (du n) (fun j => arc_integrand R v (u_node n j))
    (Z.to_nat (n - 1)).

End Spec.

(** ** Sequences of calls on a handle *)

Inductive op : Type :=
| GetMesh
| ComputeSurfaceArea
| ComputeEdgeLength.

(** What a call hands back to the caller. *)
Inductive value : Type :=
| VMesh (m : option Mesh)
| VFloat (r : result float).

Definition call (o : op) (self : MobiusStrip) : value * MobiusStrip :=
  match o with
  | GetMesh =>
      let '(r, self') := get_mesh self in
      (match r with Ok m => VMesh m | Raise _ => VMesh None end, self')
  | ComputeSurfaceArea =>
      let '(r, self') := compute_surface_area self in (VFloat r, self')
  | ComputeEdgeLength =>
      let '(r, self') := compute_edge_length self in (VFloat r, self')
  end.

(** The handle after a sequence of calls, exceptions caught by the caller. *)
Fixpoint after (ops : list op) (self : MobiusStrip) : MobiusStrip :=
  match ops with
  | [] => self
  | o :: ops' => after ops' (snd (call o self))
  end.

(** [a.shape == (rows, cols)] *)
Definition has_shape (a : np.ndarray2) (rows cols : nat) : Prop :=
  length a = rows /\ Forall (fun row => length row = cols) a.

(** Entry [a[i][j]]. *)
Definition entry (a : np.ndarray2) (i j : nat) : float := nth j (nth i a []) 0.

(** The grid invariant of the data model, for a handle of width [w] and
    resolution [n]. *)
Definition grid_invariant (w : float) (n : Z) (self : MobiusStrip) : Prop :=
  let u := self_u self in
  let v := self_v self in
  let last := Z.to_nat (n - 1) in
  length u = Z.to_nat n /\ length v = Z.to_nat n /\
  nth O u 0 = 0 /\ nth last u 0 = 2 * PI /\
  nth O v 0 = - w / 2 /\ nth last v 0 = w / 2 /\
  (forall i, (i < last)%nat -> nth (S i) u 0 - nth i u 0 = 2 * PI / IZR (n - 1)) /\
  (forall i, (i < last)%nat -> nth (S i) v 0 - nth i v 0 = w / IZR (n - 1)).

(** The handle [__init__] builds for [n >= 2], every array written as a
    table over the grid nodes (shown equal to the constructor's result in
    [init_handle]). *)
Definition handle (R w : float) (n : Z) : MobiusStrip :=
  let u := map (Spec.u_node n) (seq 0 (Z.to_nat n)) in
  let v := map (Spec.v_node w n) (seq 0 (Z.to_nat n)) in
  mkMobiusStrip R w n u v
    (map (fun _ => u) v)
    (map (fun vi => map (fun _ => vi) u) v)
    (Some (map (fun vi => map (fun uj => Spec.x R uj vi) u) v,
           map (fun vi => map (fun uj => Spec.y R uj vi) u) v,
           map (fun vi => map (fun uj => Spec.z uj vi) u) v)).

(** ** The parametrisation and its partials, as the source writes them *)

Module Param.

(** Position: lines 29-31 (repeated at 49-51 and 87-89). *)
Definition x (R u v : float) : float := (R + v * cos (u / 2)) * cos u.
Definition y (R u v : float) : float := (R + v * cos (u / 2)) * sin u.
Definition z (u v : float) : float := v * sin (u / 2).

(** "Partial derivatives with respect to u": lines 54-58 (repeated at 92-96). *)
Definition x_u (R u v : float) : float :=
  - (R + v * cos (u / 2)) * sin u - (v / 2) * sin (u / 2) * cos u.
Definition y_u (R u v : float) : float :=
  (R + v * cos (u / 2)) * cos u - (v / 2) * sin (u / 2) * sin u.
Definition z_u (u v : float) : float := (v / 2) * cos (u / 2).

(** "Partial derivatives with respect to v": lines 61-63. *)
Definition x_v (u : float) : float := cos (u / 2) * cos u.
Definition y_v (u : float) : float := cos (u / 2) * sin u.
Definition z_v (u : float) : float := sin (u / 2).

End Param.

(** ** The same program on binary64 *)

Module B64.

Import PrimFloat.
#[local] Set Warnings "-inexact-float".
Local Open Scope float_scope.

Definition f64 : Set := PrimFloat.float.

(** A call returns, raises, or needs a value of [cos] or [sin] that the
    table below does not hold. *)
Inductive outcome (A : Type) : Type :=
| Value (a : A)
| Raises (e : exn)
| OffTable.
Arguments Value {A} a.
Arguments Raises {A} e.
Arguments OffTable {A}.

Definition bind {A B : Type} (m : outcome A) (f : A -> outcome B) : outcome B :=
  match m with
  | Value a => f a
  | Raises e => Raises e
  | OffTable => OffTable
  end.

Notation "x <~ m ;; k" := (bind m (fun x => k))
  (at level 61, m at next level, right associativity).

Fixpoint traverse {A B : Type} (f : A -> outcome B) (l : list A) : outcome (list B) :=
  match l with
  | [] => Value []
  | a :: l' => b <~ f a ;; bs <~ traverse f l' ;; Value (b :: bs)
  end.

(** A Python [int] as a float; exact below [2^53]. *)
Fixpoint of_pos (p : positive) : f64 :=
  match p with
  | xH => 1
  | xO p' => 2 * of_pos p'
  | xI p' => 2 * of_pos p' + 1
  end.

Definition of_int (z : Z) : f64 :=
  match z with
  | Z0 => 0
  | Zpos p => of_pos p
  | Zneg p => - of_pos p
  end.

(** The floats Python reads from [1e200] and [1e-200]. *)
Definition huge : f64 := 1e200.
Definition tiny : f64 := 1e-200.

(** [np.pi], and the floats [np.pi / 2] and [2 * np.pi]. *)
Definition pi : f64 := 0x1.921fb54442d18p+1.
Definition half_pi : f64 := 0x1.921fb54442d18p+0.
Definition two_pi : f64 := 0x1.921fb54442d18p+2.

(** [np.cos] and [np.sin] belong to numpy and libm, not to this
    repository.  Tabulated are their binary64 values at the floats 0,
    pi/2, pi and 2 pi, the only arguments that the grids of resolution 1, 2
    and 3 pass to them; at any other argument a call is [OffTable]. *)
Definition cos (x : f64) : outcome f64 :=
  if x =? 0 then Value 1
  else if x =? half_pi then Value 0x1.1a62633145c07p-54
  else if x =? pi then Value (-1)
  else if x =? two_pi then Value 1
  else OffTable.

Definition sin (x : f64) : outcome f64 :=
  if x =? 0 then Value 0
  else if x =? half_pi then Value 1
  else if x =? pi then Value 0x1.1a62633145c07p-53
  else if x =? two_pi then Value (- 0x1.1a62633145c07p-52)
  else OffTable.

(** Python's [a / b] for a float [a] and an int [b]. *)
Definition py_div (a : f64) (b : Z) : outcome f64 :=
  if (b =? 0)%Z then Raises ZeroDivisionError else Value (a / of_int b).

Definition set_last (stop : f64) (y : list f64) : list f64 :=
  match y with
  | [] => []
  | _ :: _ => removelast y ++ [stop]
  end.

(** [np.linspace(start, stop, num)], with numpy's separate path for a step
    that rounds to zero ([y /= div; y *= delta]). *)
Definition linspace (start stop : f64) (num : Z) : outcome (list f64) :=
  if (num <? 0)%Z then Raises ValueError
  else
    let div := (num - 1)%Z in
    let delta := stop - start in
    let y := map (fun k => of_int (Z.of_nat k)) (seq 0 (Z.to_nat num)) in
    let y := if (0 <? div)%Z
             then let step := delta / of_int div in
                  if step =? 0
                  then map (fun k => k * delta) (map (fun k => k / of_int div) y)
                  else map (fun k => k * step) y
             else map (fun k => k * delta) y in
    let y := map (fun k => k + start) y in
    Value (if (1 <? num)%Z then set_last stop y else y).

(** [np.meshgrid(x, y)], as in [np.meshgrid] above. *)
Definition meshgrid (x y : list f64) : list (list f64) * list (list f64) :=
  (map (fun _ => x) y, map (fun yi => map (fun _ => yi) x) y).

(** One scalar expression applied cell by cell to two arrays of one
    shape (the class only combines [U] with [V]). *)
Definition elementwise2 (f : f64 -> f64 -> outcome f64) (u v : list (list f64))
  : outcome (list (list f64)) :=
  traverse (fun row => traverse (fun p => f (fst p) (snd p)) (combine (fst row) (snd row)))
           (combine u v).

(** [y.sum()].  The tabulated resolutions give sums of at most two terms,
    for which the order of numpy's additions is immaterial. *)
Definition sum (y : list f64) : f64 :=
  match y with
  | [] => 0
  | a :: y' => fold_left add y' a
  end.

Definition ncols (y : list (list f64)) : nat :=
  match y with
  | [] => O
  | r :: _ => length r
  end.

Definition sum_axis0 (k : nat) (y : list (list f64)) : list f64 :=
  match y with
  | [] => repeat 0 k
  | r :: y' => fold_left (np.zip_with add) y' r
  end.

(** [(d * (y[1:] + y[:-1]) / 2.0).sum()] *)
Definition trapz (y : list f64) (dx : f64) : f64 :=
  sum (np.zip_with (fun a b => dx * (a + b) / 2) (tl y) (removelast y)).

Definition trapz_axis0 (y : list (list f64)) (dx : f64) : list f64 :=
  sum_axis0 (ncols y)
    (np.zip_with (np.zip_with (fun a b => dx * (a + b) / 2)) (tl y) (removelast y)).

Definition Mesh : Type := list (list f64) * list (list f64) * list (list f64).

Record MobiusStrip : Type := mkMobiusStrip {
  self_R : f64;
  self_w : f64;
  self_n : Z;
  self_u : list f64;
  self_v : list f64;
  self_U : list (list f64);
  self_V : list (list f64);
  self_mesh : option Mesh
}.

(** Lines 20 and 21. *)
Definition grid_u (n : Z) : outcome (list f64) := linspace 0 (2 * pi) n.
Definition grid_v (w : f64) (n : Z) : outcome (list f64) := linspace (- w / 2) (w / 2) n.

(** Lines 29-31, one cell. *)
Definition position_x (R u v : f64) : outcome f64 :=
  c2 <~ cos (u / 2) ;; c <~ cos u ;; Value ((R + v * c2) * c).
Definition position_y (R u v : f64) : outcome f64 :=
  c2 <~ cos (u / 2) ;; s <~ sin u ;; Value ((R + v * c2) * s).
Definition position_z (u v : f64) : outcome f64 :=
  s2 <~ sin (u / 2) ;; Value (v * s2).

(** [__init__] with [_generate_mesh] (lines 17-32). *)
Definition __init__ (R w : f64) (n : Z) : outcome MobiusStrip :=
  u <~ grid_u n ;;
  v <~ grid_v w n ;;
  let '(U, V) := meshgrid u v in
  x <~ elementwise2 (position_x R) U V ;;
  y <~ elementwise2 (position_y R) U V ;;
  z <~ elementwise2 position_z U V ;;
  Value (mkMobiusStrip R w n u v U V (Some (x, y, z))).

(** [x ** 2] on a float array is [x * x]. *)
Definition square (t : f64) : f64 := t * t.

(** Lines 54-68, one cell, in Python's order of evaluation. *)
Definition surface_element (R u v : f64) : outcome f64 :=
  c2 <~ cos (u / 2) ;; s2 <~ sin (u / 2) ;; c <~ cos u ;; s <~ sin u ;;
  let x_u := - (R + v * c2) * s - (v / 2) * s2 * c in
  let y_u := (R + v * c2) * c - (v / 2) * s2 * s in
  let z_u := (v / 2) * c2 in
  let x_v := c2 * c in
  let y_v := c2 * s in
  let z_v := s2 in
  Value (sqrt (square (y_u * z_v - z_u * y_v) +
               square (z_u * x_v - x_u * z_v) +
               square (x_u * y_v - y_u * x_v))).

(** Lines 45 and 46. *)
Definition du (n : Z) : outcome f64 := py_div (2 * pi) (n - 1).
Definition dv (w : f64) (n : Z) : outcome f64 := py_div w (n - 1).

(** [compute_surface_area] (lines 38-72). *)
Definition compute_surface_area (self : MobiusStrip) : outcome f64 :=
  du <~ du (self_n self) ;;
  dv <~ dv (self_w self) (self_n self) ;;
  integrand <~ elementwise2 (surface_element (self_R self)) (self_U self) (self_V self) ;;
  Value (trapz (trapz_axis0 integrand dv) du).

(** Lines 92-99, one sample. *)
Definition arc_element (R v u : f64) : outcome f64 :=
  c2 <~ cos (u / 2) ;; s2 <~ sin (u / 2) ;; c <~ cos u ;; s <~ sin u ;;
  let dx_du := - (R + v * c2) * s - (v / 2) * s2 * c in
  let dy_du := (R + v * c2) * c - (v / 2) * s2 * s in
  let dz_du := (v / 2) * c2 in
  Value (sqrt (square dx_du + square dy_du + square dz_du)).

Definition edge_length_at (R : f64) (u : list f64) (du v : f64) : outcome f64 :=
  integrand <~ traverse (arc_element R v) u ;;
  Value (trapz integrand du).

(** [compute_edge_length] (lines 74-103). *)
Definition compute_edge_length (self : MobiusStrip) : outcome f64 :=
  du <~ du (self_n self) ;;
  let v_edges := [self_w self / 2; - self_w self / 2] in
  lengths <~ traverse (edge_length_at (self_R self) (self_u self) du) v_edges ;;
  Value (fold_left add lengths 0).

(** [MobiusStrip(R, w, n).compute_surface_area()] and its siblings. *)
Definition area (R w : f64) (n : Z) : outcome f64 :=
  self <~ __init__ R w n ;; compute_surface_area self.
Definition edge (R w : f64) (n : Z) : outcome f64 :=
  self <~ __init__ R w n ;; compute_edge_length self.

Definition entry (a : list (list f64)) (i j : nat) : f64 := nth j (nth i a []) 0.

(** Every difference of neighbours in [y] is the float [d]. *)
Definition uniformly_spaced (d : f64) (y : list f64) : bool :=
  forallb (fun p => (fst p - snd p) =? d) (combine (tl y) (removelast y)).

(** [y[len-1-i] == -y[i]] for every [i]. *)
Definition antisymmetric (y : list f64) : bool :=
  forallb (fun p => fst p =? - snd p) (combine y (rev y)).


End B64.

(** ** Arrays as tables over an index range *)

Section Tables.

Lemma zip_with_map_same (A B C : Type) (f : A -> B -> C) (g : A -> B) (l : list A) :
  np.zip_with f l (map g l) = map (fun a => f a (g a)) l.
Proof. induction l as [|a l IH]; simpl; [reflexivity | now rewrite IH]. Qed.

Lemma zip_with_same (A C : Type) (f : A -> A -> C) (l : list A) :
  np.zip_with f l l = map (fun a => f a a) l.
Proof. induction l as [|a l IH]; simpl; [reflexivity | now rewrite IH]. Qed.

Lemma zip_with_map_map (A B C D E : Type) (f : B -> C -> D)
      (g : A -> B) (h : E -> C) (l : list A) (l' : list E) :
  np.zip_with f (map g l) (map h l') = np.zip_with (fun a e => f (g a) (h e)) l l'.
Proof.
  revert l'; induction l as [|a l IH]; intros [|e l']; simpl; try reflexivity.
  now rewrite IH.
Qed.

Lemma zip_with_seq_shift (C : Type) (f : nat -> nat -> C) (m s : nat) :
  np.zip_with f (seq (S s) m) (seq s m) = map (fun k => f (S k) k) (seq s m).
Proof.
  revert s; induction m as [|m IH]; intros s; simpl; [reflexivity|].
  now rewrite IH.
Qed.

Lemma tl_map (A B : Type) (g : A -> B) (l : list A) : tl (map g l) = map g (tl l).
Proof. destruct l; reflexivity. Qed.

Lemma removelast_map (A B : Type) (g : A -> B) (l : list A) :
  removelast (map g l) = map g (removelast l).
Proof.
  induction l as [|a l IH]; simpl; [reflexivity|].
  destruct l; simpl in *; [reflexivity | now rewrite IH].
Qed.

Lemma removelast_seq (s m : nat) : removelast (seq s (S m)) = seq s m.
Proof. rewrite seq_S. apply removelast_last. Qed.

Lemma tl_seq (s m : nat) : tl (seq s (S m)) = seq (S s) m.
Proof. reflexivity. Qed.

(** The meshgrid of two arrays, combined cell by cell: row [i] is indexed
    by [y[i]], column [j] by [x[j]]. *)
Lemma elementwise2_meshgrid (f : float -> float -> float) (x y : np.ndarray1) :
  np.elementwise2 f (map (fun _ => x) y) (map (fun yi => map (fun _ => yi) x) y)
  = map (fun yi => map (fun xj => f xj yi) x) y.
Proof.
  unfold np.elementwise2.
  rewrite zip_with_map_map.
  induction y as [|yi y IH]; simpl; [reflexivity|].
  rewrite IH. f_equal.
  apply zip_with_map_same.
Qed.

(** Summing along axis 0 a stack of rows that are all tables over the
    same [x] sums each column. *)
Lemma sum_axis0_rows (A : Type) (F : A -> float -> float) (x : np.ndarray1) (ps : list A) :
  np.sum_axis0 (length x) (map (fun p => map (F p) x) ps)
  = map (fun xj => np.sum (map (fun p => F p xj) ps)) x.
Proof.
  unfold np.sum_axis0.
  induction ps as [|p ps IH]; simpl.
  - induction x as [|a x IHx]; simpl; [reflexivity | now rewrite IHx].
  - rewrite IH. clear IH.
    rewrite zip_with_map_map, zip_with_same. reflexivity.
Qed.

(** [np.trapz] of a table over [0..m]. *)
Lemma trapz_table (g : nat -> float) (m : nat) (d : float) :
  np.trapz (map g (seq 0 (S m))) d
  = np.sum (map (fun k => d * (g (S k) + g k) / 2) (seq 0 m)).
Proof.
  unfold np.trapz.
  rewrite tl_map, removelast_map, tl_seq, removelast_seq.
  rewrite zip_with_map_map, zip_with_seq_shift. reflexivity.
Qed.

Lemma sum_table (f : nat -> float) (m : nat) :
  np.sum (map f (seq 0 m)) = Spec.big_sum f m.
Proof.
  induction m as [|m IH]; [reflexivity|].
  rewrite seq_S, map_app. cbn [Spec.big_sum].
  rewrite <- IH. clear IH.
  unfold np.sum. rewrite fold_right_app. cbn [map fold_right Nat.add].
  generalize (map f (seq 0 m)) as l. intros l.
  induction l as [|a l IHl]; simpl; [lra | rewrite IHl; lra].
Qed.

Lemma big_sum_ext (f g : nat -> float) (m : nat) :
  (forall k, (k < m)%nat -> f k = g k) -> Spec.big_sum f m = Spec.big_sum g m.
Proof.
  induction m as [|m IH]; intros H; simpl; [reflexivity|].
  rewrite IH by (intros; apply H; lia). rewrite H by lia. reflexivity.
Qed.

(** The sum of the per-interval trapezoids is the end-weighted rule. *)
Lemma trapezoids_composite (g : nat -> float) (m : nat) (d : float) :
  (1 <= m)%nat ->
  Spec.big_sum (fun k => d * (g (S k) + g k) / 2) m = Spec.composite_trapezoid d g m.
Proof.
  unfold Spec.composite_trapezoid.
  destruct m as [|m]; [lia | intros _].
  replace (S m - 1)%nat with m by lia.
  induction m as [|m IH].
  - cbn [Spec.big_sum]. field.
  - change (Spec.big_sum (fun k => d * (g (S k) + g k) / 2) (S (S m)))
      with (Spec.big_sum (fun k => d * (g (S k) + g k) / 2) (S m)
            + d * (g (S (S m)) + g (S m)) / 2).
    rewrite IH. cbn [Spec.big_sum]. field.
Qed.

Lemma trapz_composite (g : nat -> float) (m : nat) (d : float) :
  (1 <= m)%nat ->
  np.trapz (map g (seq 0 (S m))) d = Spec.composite_trapezoid d g m.
Proof.
  intros Hm. rewrite trapz_table, sum_table. now apply trapezoids_composite.
Qed.

End Tables.

Section Grid.

Lemma zip_with_ext (A B C : Type) (f g : A -> B -> C) (l : list A) (l' : list B) :
  (forall a b, f a b = g a b) -> np.zip_with f l l' = np.zip_with g l l'.
Proof.
  intros H. revert l'; induction l as [|a l IH]; intros [|b l']; simpl; try reflexivity.
  now rewrite H, IH.
Qed.

Lemma zip_with_combine (A B C : Type) (f : A -> B -> C) (l : list A) (l' : list B) :
  np.zip_with f l l' = map (fun p => f (fst p) (snd p)) (combine l l').
Proof.
  revert l'; induction l as [|a l IH]; intros [|b l']; simpl; try reflexivity.
  now rewrite IH.
Qed.

(** Integrating the grid along axis 0 integrates each column on its own:
    entry [j] of the result is the 1-D rule over [v] at [u[j]]. *)
Lemma trapz_axis0_grid (f : float -> float -> float) (u v : np.ndarray1) (d : float) :
  v <> [] ->
  np.trapz_axis0 (map (fun vi => map (fun uj => f uj vi) u) v) d
  = map (fun uj => np.trapz (map (fun vi => f uj vi) v) d) u.
Proof.
  intros Hv. unfold np.trapz_axis0.
  replace (np.ncols (map (fun vi => map (fun uj => f uj vi) u) v)) with (length u)
    by (destruct v; [congruence | simpl; now rewrite length_map]).
  rewrite tl_map, removelast_map, zip_with_map_map.
  rewrite (zip_with_ext _ _ _ _
             (fun va vb => map (fun uj => d * (f uj va + f uj vb) / 2) u))
    by (intros; rewrite zip_with_map_map; apply zip_with_same).
  rewrite zip_with_combine.
  rewrite (sum_axis0_rows _ (fun p uj => d * (f uj (fst p) + f uj (snd p)) / 2)).
  apply map_ext; intros uj.
  unfold np.trapz. rewrite tl_map, removelast_map, zip_with_map_map.
  now rewrite zip_with_combine.
Qed.

Lemma resolution_nat (n : Z) :
  (2 <= n)%Z ->
  exists m, Z.to_nat n = S (S m) /\ Z.to_nat (n - 1) = S m /\ IZR (n - 1) = INR (S m).
Proof.
  intros Hn. exists (Z.to_nat (n - 2)). repeat split; try lia.
  rewrite INR_IZR_INZ. f_equal. lia.
Qed.

Lemma IZR_pred_pos (n : Z) : (2 <= n)%Z -> 0 < IZR (n - 1).
Proof. intros Hn. apply IZR_lt. lia. Qed.

(** For [n >= 2], [np.linspace] is the table of equally spaced nodes. *)
Lemma linspace_table (a b : float) (n : Z) :
  (2 <= n)%Z ->
  np.linspace a b n
  = Ok (map (fun k => INR k * ((b - a) / IZR (n - 1)) + a) (seq 0 (Z.to_nat n))).
Proof.
  intros Hn. unfold np.linspace.
  destruct (Z.ltb_spec n 0); [lia|].
  destruct (Z.ltb_spec 0 (n - 1)); [|lia].
  destruct (Z.ltb_spec 1 n); [|lia].
  f_equal. rewrite !map_map.
  destruct (resolution_nat n Hn) as (m & -> & _ & Hm).
  unfold np.set_last.
  rewrite seq_S, !map_app. cbn [map Nat.add].
  destruct (map _ (seq 0 (S m)) ++ _) eqn:E.
  - destruct (map (fun x : nat => INR x * ((b - a) / IZR (n - 1)) + a) (seq 0 (S m)));
      discriminate.
  - rewrite <- E, removelast_last. f_equal. f_equal.
    rewrite Hm. field. rewrite <- Hm. apply Rgt_not_eq, IZR_pred_pos, Hn.
Qed.

Lemma linspace_nonneg (a b : float) (n : Z) :
  (0 <= n)%Z -> exists y, np.linspace a b n = Ok y /\ length y = Z.to_nat n.
Proof.
  intros Hn. unfold np.linspace.
  destruct (Z.ltb_spec n 0); [lia|].
  eexists; split; [reflexivity|].
  assert (L : forall l : list float, length (np.set_last b l) = length l).
  { intros [|x l]; [reflexivity|]. unfold np.set_last.
    rewrite length_app, removelast_firstn_len, length_firstn. simpl. lia. }
  destruct (1 <? n)%Z; [rewrite L|];
    destruct (0 <? n - 1)%Z; now rewrite !length_map, length_seq.
Qed.

Lemma linspace_negative (a b : float) (n : Z) :
  (n < 0)%Z -> np.linspace a b n = Raise ValueError.
Proof.
  intros Hn. unfold np.linspace. destruct (Z.ltb_spec n 0); [reflexivity | lia].
Qed.

End Grid.

Section Construction.

Lemma init_handle (R w : float) (n : Z) :
  (2 <= n)%Z -> __init__ R w n = Ok (handle R w n).
Proof.
  intros Hn.
  assert (Hd : IZR (n - 1) <> 0) by (apply Rgt_not_eq, IZR_pred_pos, Hn).
  unfold __init__. rewrite !linspace_table by exact Hn.
  rewrite (map_ext _ (Spec.u_node n))
    by (intros k; unfold Spec.u_node, Spec.du, np.pi; field; exact Hd).
  rewrite (map_ext (fun k => INR k * ((w / 2 - - w / 2) / IZR (n - 1)) + - w / 2)
             (Spec.v_node w n))
    by (intros k; unfold Spec.v_node, Spec.dv; field; exact Hd).
  unfold np.meshgrid, _generate_mesh, bind, attr, set_mesh.
  cbn [self_R self_w self_n self_u self_v self_U self_V self_mesh].
  rewrite !elementwise2_meshgrid. reflexivity.
Qed.

Lemma init_nonneg (R w : float) (n : Z) :
  (0 <= n)%Z -> exists self, __init__ R w n = Ok self.
Proof.
  intros Hn. unfold __init__.
  destruct (linspace_nonneg 0 (2 * np.pi) n Hn) as (u & -> & _).
  destruct (linspace_nonneg (- w / 2) (w / 2) n Hn) as (v & -> & _).
  unfold np.meshgrid, _generate_mesh, bind, attr, set_mesh.
  eexists; reflexivity.
Qed.

End Construction.

Section Estimators.

Lemma composite_trapezoid_ext (d : float) (f g : nat -> float) (m : nat) :
  (forall k, f k = g k) ->
  Spec.composite_trapezoid d f m = Spec.composite_trapezoid d g m.
Proof.
  intros H. unfold Spec.composite_trapezoid.
  rewrite (big_sum_ext (fun k => f (S k)) (fun k => g (S k))) by (intros; apply H).
  now rewrite !H.
Qed.


Lemma arc_element_spec (R v u : float) :
  arc_element R v u = Spec.arc_integrand R v u.
Proof. reflexivity. Qed.

Lemma py_div_pred (a : float) (n : Z) :
  (2 <= n)%Z -> py_div a (n - 1) = Ok (a / IZR (n - 1)).
Proof.
  intros Hn. unfold py_div. destruct (Z.eqb_spec (n - 1) 0); [lia | reflexivity].
Qed.

(** The edge at [v], integrated over the handle's own [u] samples. *)
Lemma edge_length_at_handle (R v : float) (n : Z) :
  (2 <= n)%Z ->
  edge_length_at R (map (Spec.u_node n) (seq 0 (Z.to_nat n))) (Spec.du n) v
  = Spec.edge_length R n v.
Proof.
  intros Hn. destruct (resolution_nat n Hn) as (m & Hm & Hm1 & _).
  unfold edge_length_at, Spec.edge_length. rewrite Hm, Hm1, map_map.
  rewrite (trapz_composite (fun j => arc_element R v (Spec.u_node n j))) by lia.
  reflexivity.
Qed.

Lemma compute_edge_length_handle (R w : float) (n : Z) :
  (2 <= n)%Z ->
  compute_edge_length (handle R w n)
  = (Ok (Spec.edge_length R n (w / 2) + Spec.edge_length R n (- w / 2)), handle R w n).
Proof.
  intros Hn.
  unfold compute_edge_length, bind, attr, lift, ret.
  cbn [handle self_R self_w self_n self_u].
  rewrite py_div_pred by exact Hn.
  unfold edge_lengths. cbn [map fold_left].
  fold (Spec.du n). rewrite !edge_length_at_handle by exact Hn.
  do 2 f_equal. ring.
Qed.

Lemma compute_surface_area_handle (R w : float) (n : Z) :
  (2 <= n)%Z ->
  compute_surface_area (handle R w n) = (Ok (Spec.surface_area R w n), handle R w n).
Proof.
  intros Hn. destruct (resolution_nat n Hn) as (m & Hm & Hm1 & _).
  unfold compute_surface_area, bind, attr, lift, ret.
  cbn [handle self_R self_w self_n self_U self_V].
  rewrite !py_div_pred by exact Hn.
  fold (Spec.du n). fold (Spec.dv w n).
  rewrite elementwise2_meshgrid.
  rewrite trapz_axis0_grid by (rewrite Hm; discriminate).
  unfold Spec.surface_area. rewrite Hm, Hm1, map_map.
  rewrite (trapz_composite
             (fun j => np.trapz
                         (map (fun vi => surface_element R (Spec.u_node n j) vi)
                              (map (Spec.v_node w n) (seq 0 (S (S m)))))
                         (Spec.dv w n))) by lia.
  do 2 f_equal. apply composite_trapezoid_ext; intros j.
  rewrite map_map.
  rewrite (trapz_composite
             (fun i => surface_element R (Spec.u_node n j) (Spec.v_node w n i))) by lia.
  reflexivity.
Qed.

End Estimators.

Section Integrands.

Lemma sin2_cos2_pow (t : float) : sin t ^ 2 + cos t ^ 2 = 1.
Proof. generalize (sin2_cos2 t). unfold Rsqr. lra. Qed.

(** The squared speed along [u]: [(R + v cos(u/2))^2 + v^2/4]. *)
Lemma speed_u_closed (R u v : float) :
  Spec.x_u R u v ^ 2 + Spec.y_u R u v ^ 2 + Spec.z_u u v ^ 2
  = (R + v * cos (u / 2)) ^ 2 + v ^ 2 / 4.
Proof.
  unfold Spec.x_u, Spec.y_u, Spec.z_u.
  generalize (sin2_cos2_pow u) (sin2_cos2_pow (u / 2)).
  generalize (sin u) (cos u) (sin (u / 2)) (cos (u / 2)).
  intros s' c' s c H' H.
  replace ((- (R + v * c) * s' - v / 2 * s * c') ^ 2
           + ((R + v * c) * c' - v / 2 * s * s') ^ 2 + (v / 2 * c) ^ 2)
    with ((R + v * c) ^ 2 * (s' ^ 2 + c' ^ 2)
          + (v / 2) ^ 2 * (s ^ 2 * (s' ^ 2 + c' ^ 2) + c ^ 2)) by ring.
  rewrite H', !Rmult_1_r, H. field.
Qed.

Lemma arc_integrand_closed (R v u : float) :
  Spec.arc_integrand R v u = sqrt ((R + v * cos (u / 2)) ^ 2 + v ^ 2 / 4).
Proof. unfold Spec.arc_integrand. now rewrite speed_u_closed. Qed.

(** Lagrange's identity turns the cross product norm into
    [|P_u|^2 |P_v|^2 - (P_u . P_v)^2]; here [|P_v| = 1] and
    [P_u . P_v = 0]. *)
Lemma area_integrand_closed (R u v : float) :
  Spec.area_integrand R u v = sqrt ((R + v * cos (u / 2)) ^ 2 + v ^ 2 / 4).
Proof.
  unfold Spec.area_integrand. f_equal.
  rewrite <- speed_u_closed.
  assert (G : Spec.x_v u ^ 2 + Spec.y_v u ^ 2 + Spec.z_v u ^ 2 = 1).
  { unfold Spec.x_v, Spec.y_v, Spec.z_v.
    generalize (sin2_cos2_pow u) (sin2_cos2_pow (u / 2)).
    generalize (sin u) (cos u) (sin (u / 2)) (cos (u / 2)).
    intros s' c' s c H' H.
    replace ((c * c') ^ 2 + (c * s') ^ 2 + s ^ 2)
      with (c ^ 2 * (s' ^ 2 + c' ^ 2) + s ^ 2) by ring.
    rewrite H'. lra. }
  assert (F : Spec.x_u R u v * Spec.x_v u + Spec.y_u R u v * Spec.y_v u
              + Spec.z_u u v * Spec.z_v u = 0).
  { unfold Spec.x_u, Spec.y_u, Spec.z_u, Spec.x_v, Spec.y_v, Spec.z_v.
    generalize (sin2_cos2_pow u).
    generalize (sin u) (cos u) (sin (u / 2)) (cos (u / 2)).
    intros s' c' s c H'.
    replace ((- (R + v * c) * s' - v / 2 * s * c') * (c * c')
             + ((R + v * c) * c' - v / 2 * s * s') * (c * s') + v / 2 * c * s)
      with (v / 2 * c * s * (1 - (s' ^ 2 + c' ^ 2))) by ring.
    rewrite H'. ring. }
  generalize G F.
  generalize (Spec.x_u R u v) (Spec.y_u R u v) (Spec.z_u u v)
             (Spec.x_v u) (Spec.y_v u) (Spec.z_v u).
  intros xu yu zu xv yv zv HG HF.
  replace ((yu * zv - zu * yv) ^ 2 + (zu * xv - xu * zv) ^ 2 + (xu * yv - yu * xv) ^ 2)
    with ((xu ^ 2 + yu ^ 2 + zu ^ 2) * (xv ^ 2 + yv ^ 2 + zv ^ 2)
          - (xu * xv + yu * yv + zu * zv) ^ 2) by ring.
  rewrite HG, HF. ring.
Qed.

Lemma big_sum_nonneg (f : nat -> float) (m : nat) :
  (forall k, 0 <= f k) -> 0 <= Spec.big_sum f m.
Proof.
  intros H. induction m as [|m IH]; simpl; [lra|].
  specialize (H m). lra.
Qed.

Lemma composite_trapezoid_nonneg (d : float) (f : nat -> float) (m : nat) :
  0 <= d -> (forall k, 0 <= f k) -> 0 <= Spec.composite_trapezoid d f m.
Proof.
  intros Hd Hf. unfold Spec.composite_trapezoid.
  apply Rmult_le_pos; [exact Hd|].
  pose proof (big_sum_nonneg (fun k => f (S k)) (m - 1) (fun k => Hf (S k))).
  pose proof (Hf O). pose proof (Hf m). lra.
Qed.

Lemma du_pos (n : Z) : (2 <= n)%Z -> 0 < Spec.du n.
Proof.
  intros Hn. unfold Spec.du. apply Rdiv_lt_0_compat; [|now apply IZR_pred_pos].
  apply Rmult_lt_0_compat; [lra | apply PI_RGT_0].
Qed.

Lemma surface_area_nonneg (R w : float) (n : Z) :
  0 <= w -> (2 <= n)%Z -> 0 <= Spec.surface_area R w n.
Proof.
  intros Hw Hn. unfold Spec.surface_area.
  apply composite_trapezoid_nonneg; [apply Rlt_le, du_pos, Hn|].
  intros j. apply composite_trapezoid_nonneg.
  - unfold Spec.dv. apply Rmult_le_pos; [exact Hw|].
    apply Rlt_le, Rinv_0_lt_compat, IZR_pred_pos, Hn.
  - intros i. apply sqrt_pos.
Qed.


End Integrands.

Section Calls.

Lemma compute_surface_area_frame (self : MobiusStrip) :
  snd (compute_surface_area self) = self.
Proof.
  unfold compute_surface_area, bind, attr, lift, ret.
  destruct (py_div (2 * np.pi) (self_n self - 1)); [|reflexivity].
  destruct (py_div (self_w self) (self_n self - 1)); reflexivity.
Qed.

Lemma compute_edge_length_frame (self : MobiusStrip) :
  snd (compute_edge_length self) = self.
Proof.
  unfold compute_edge_length, bind, attr, lift, ret.
  destruct (py_div (2 * np.pi) (self_n self - 1)); reflexivity.
Qed.

Lemma call_frame (o : op) (self : MobiusStrip) : snd (call o self) = self.
Proof.
  destruct o; unfold call.
  - reflexivity.
  - pose proof (compute_surface_area_frame self) as H.
    destruct (compute_surface_area self); exact H.
  - pose proof (compute_edge_length_frame self) as H.
    destruct (compute_edge_length self); exact H.
Qed.

Lemma after_frame (ops : list op) (self : MobiusStrip) : after ops self = self.
Proof.
  induction ops as [|o ops IH]; simpl; [reflexivity|].
  now rewrite call_frame.
Qed.

Lemma nth_table (A : Type) (g : nat -> A) (m k : nat) (d : A) :
  (k < m)%nat -> nth k (map g (seq 0 m)) d = g k.
Proof.
  intros Hk. rewrite (nth_indep _ d (g O)) by (now rewrite length_map, length_seq).
  rewrite map_nth, seq_nth by exact Hk. reflexivity.
Qed.

Lemma entry_table (g : nat -> nat -> float) (m k i j : nat) :
  (i < m)%nat -> (j < k)%nat ->
  entry (map (fun i => map (g i) (seq 0 k)) (seq 0 m)) i j = g i j.
Proof.
  intros Hi Hj. unfold entry. rewrite nth_table by exact Hi. now apply nth_table.
Qed.

Lemma grid_table (f : float -> float -> float) (gu gv : nat -> float) (m k : nat) :
  map (fun vi => map (fun uj => f uj vi) (map gu (seq 0 k))) (map gv (seq 0 m))
  = map (fun i => map (fun j => f (gu j) (gv i)) (seq 0 k)) (seq 0 m).
Proof.
  rewrite map_map. apply map_ext; intros i. now rewrite map_map.
Qed.


Lemma handle_grid_invariant (R w : float) (n : Z) :
  (2 <= n)%Z -> grid_invariant w n (handle R w n).
Proof.
  intros Hn. destruct (resolution_nat n Hn) as (m & Hm & Hm1 & HI).
  assert (Hd : IZR (n - 1) <> 0) by (apply Rgt_not_eq, IZR_pred_pos, Hn).
  unfold grid_invariant. cbn [handle self_u self_v].
  rewrite !length_map, !length_seq, Hm, Hm1.
  repeat split.
  - rewrite nth_table by lia. unfold Spec.u_node. simpl. ring.
  - rewrite nth_table by lia. unfold Spec.u_node, Spec.du. rewrite HI. field.
    rewrite <- HI. exact Hd.
  - rewrite nth_table by lia. unfold Spec.v_node. simpl. ring.
  - rewrite nth_table by lia. unfold Spec.v_node, Spec.dv. rewrite HI. field.
    rewrite <- HI. exact Hd.
  - intros i Hi. rewrite !nth_table by lia. unfold Spec.u_node, Spec.du.
    rewrite S_INR. field. exact Hd.
  - intros i Hi. rewrite !nth_table by lia. unfold Spec.v_node, Spec.dv.
    rewrite S_INR. field. exact Hd.
Qed.

End Calls.

(** ** Construction *)

(** C1, as stated, fails: the constructor validates nothing itself, and
    numpy builds a one-sample and an empty grid without complaint, so
    resolutions 1 and 0 both yield a handle. *)
Lemma C1_low_resolution_constructs :
  (exists self, __init__ 3 1 1 = Ok self /\ length (self_u self) = 1%nat) /\
  (exists self, __init__ 3 1 0 = Ok self /\ length (self_u self) = 0%nat).
Proof. split; eexists; split; reflexivity. Qed.

(** C1, amended: construction succeeds for every resolution [n >= 0], so
    for 0 and 1 as for every [n >= 2]; only a negative [n] fails at
    construction, with numpy's [ValueError], and then no handle exists.  At
    [n = 1] the failure comes later: both estimators raise
    [ZeroDivisionError] when called, and leave the handle as it was. *)
Theorem C1_construction (R w : float) (n : Z) :
  ((0 <= n)%Z -> exists self, __init__ R w n = Ok self) /\
  ((n < 0)%Z -> __init__ R w n = Raise ValueError) /\
  (n = 1%Z -> forall self, __init__ R w n = Ok self ->
     compute_surface_area self = (Raise ZeroDivisionError, self) /\
     compute_edge_length self = (Raise ZeroDivisionError, self)).
Proof.
  split; [apply init_nonneg|]. split.
  - intros Hn. unfold __init__. now rewrite linspace_negative.
  - intros -> self H. unfold __init__ in H. simpl in H.
    injection H as <-. split; reflexivity.
Qed.

Lemma C1_construction_witness :
  (exists self, __init__ 3 1 2 = Ok self) /\
  __init__ 3 1 (-1) = Raise ValueError /\
  (exists self, __init__ 3 1 1 = Ok self /\
     compute_surface_area self = (Raise ZeroDivisionError, self) /\
     compute_edge_length self = (Raise ZeroDivisionError, self)).
Proof.
  split; [apply (proj1 (C1_construction 3 1 2)); lia|].
  split; [apply (proj1 (proj2 (C1_construction 3 1 (-1)))); lia|].
  eexists. split; [reflexivity|].
  apply (proj2 (proj2 (C1_construction 3 1 1)) eq_refl). reflexivity.
Defined.

(** ** Surface area *)

(** C2: on a handle built with [n >= 2], [compute_surface_area] returns the
    composite trapezoidal rule applied twice to the cross-product integrand
    of the analytic partials: along [v] with spacing [w/(n-1)] for every
    [u_j], then along [u] with spacing [2 pi/(n-1)]. *)
Theorem C2_surface_area_nested_trapezoid (R w : float) (n : Z) (self : MobiusStrip) :
  (2 <= n)%Z ->
  __init__ R w n = Ok self ->
  compute_surface_area self = (Ok (Spec.surface_area R w n), self).
Proof.
  intros Hn H. rewrite init_handle in H by exact Hn. injection H as <-.
  now apply compute_surface_area_handle.
Qed.

Lemma C2_surface_area_nested_trapezoid_witness :
  exists self, __init__ 3 1 4 = Ok self /\
               compute_surface_area self = (Ok (Spec.surface_area 3 1 4), self).
Proof.
  eexists. split; [reflexivity|].
  apply (C2_surface_area_nested_trapezoid 3 1 4); [lia | reflexivity].
Defined.

(** ** Edge length *)

(** C3: on a handle built with [n >= 2], the loop of [compute_edge_length]
    computes two lengths, the trapezoidal arc-length integral at [v = +w/2]
    and the one at [v = -w/2], each over the [u] grid with spacing
    [2 pi/(n-1)], and the method returns their sum. *)
Theorem C3_edge_length_two_integrals (R w : float) (n : Z) (self : MobiusStrip) :
  (2 <= n)%Z ->
  __init__ R w n = Ok self ->
  edge_lengths (self_R self) (self_w self) (self_u self) (2 * np.pi / IZR (self_n self - 1))
  = [Spec.edge_length R n (w / 2); Spec.edge_length R n (- w / 2)] /\
  compute_edge_length self
  = (Ok (Spec.edge_length R n (w / 2) + Spec.edge_length R n (- w / 2)), self).
Proof.
  intros Hn H. rewrite init_handle in H by exact Hn. injection H as <-.
  split; [|now apply compute_edge_length_handle].
  cbn [handle self_R self_w self_n self_u]. unfold edge_lengths. cbn [map].
  fold (Spec.du n). now rewrite !edge_length_at_handle.
Qed.

Lemma C3_edge_length_two_integrals_witness :
  exists self, __init__ 3 1 4 = Ok self /\
    compute_edge_length self
    = (Ok (Spec.edge_length 3 4 (1 / 2) + Spec.edge_length 3 4 (- 1 / 2)), self).
Proof.
  eexists. split; [reflexivity|].
  apply (C3_edge_length_two_integrals 3 1 4); [lia | reflexivity].
Defined.

(** ** Mesh and grid *)



Lemma grid_invariant_exact (R w : float) (n : Z) (self : MobiusStrip) (ops : list op) :
  (2 <= n)%Z ->
  __init__ R w n = Ok self ->
  grid_invariant w n self /\ grid_invariant w n (after ops self).
Proof.
  intros Hn H. rewrite init_handle in H by exact Hn. injection H as <-.
  rewrite after_frame. split; now apply handle_grid_invariant.
Qed.

(** C5, amended: a handle built with [n >= 2] has [n] samples in each
    grid with [u[0] = 0], [u[n-1] = 2 pi], [v[0] = -w/2], [v[n-1] = w/2], at
    construction and after every sequence of later calls; in exact
    arithmetic the samples are spaced by [2 pi/(n-1)] and [w/(n-1)].  In
    binary64 the counts and end points are the same (shown at [w = 1],
    [n = 4]), while the differences of neighbours agree with [du] and [dv]
    only up to rounding. *)
Theorem C5_grid_invariant :
  (forall (R w : float) (n : Z) (self : MobiusStrip) (ops : list op),
     (2 <= n)%Z ->
     __init__ R w n = Ok self ->
     grid_invariant w n self /\ grid_invariant w n (after ops self)) /\
  (exists u v : list B64.f64,
     B64.grid_u 4 = B64.Value u /\ B64.grid_v (B64.of_int 1) 4 = B64.Value v /\
     length u = 4%nat /\ length v = 4%nat /\
     nth 0 u B64.tiny = B64.of_int 0 /\ nth 3 u B64.tiny = B64.two_pi /\
     nth 0 v B64.tiny = PrimFloat.div (PrimFloat.opp (B64.of_int 1)) (B64.of_int 2) /\
     nth 3 v B64.tiny = PrimFloat.div (B64.of_int 1) (B64.of_int 2)).
Proof.
  split; [exact grid_invariant_exact|].
  do 2 eexists. do 2 (split; [vm_compute; reflexivity|]).
  repeat split; vm_compute; reflexivity.
Qed.

Lemma C5_grid_invariant_witness :
  exists self, __init__ 3 1 5 = Ok self /\
    grid_invariant 1 5 (after [ComputeSurfaceArea; GetMesh; ComputeEdgeLength] self).
Proof.
  eexists. split; [reflexivity|].
  apply (proj1 C5_grid_invariant 3 1 5%Z _ _ ltac:(lia) eq_refl).
Defined.

(** ** Returned values *)




(** ** Frame *)

(** C9: [get_mesh], [compute_surface_area] and [compute_edge_length] leave
    the handle as it is, whether they return or raise: after any sequence
    of calls every field ([R], [w], [n], [u], [v], [U], [V], [mesh]) has
    the value it had before, and [get_mesh] returns the same mesh. *)
Theorem C9_no_side_effects (self : MobiusStrip) (ops : list op) :
  (forall o, snd (call o self) = self) /\
  after ops self = self /\
  get_mesh (after ops self) = get_mesh self /\
  fst (call GetMesh (after ops self)) = VMesh (self_mesh self).
Proof.
  split; [intros o; apply call_frame|].
  rewrite after_frame. repeat split.
Qed.

(** ** Symmetry of the two edges *)

Section Reversal.

Lemma big_sum_shift (f : nat -> float) (p : nat) :
  Spec.big_sum f (S p) = f O + Spec.big_sum (fun k => f (S k)) p.
Proof.
  induction p as [|p IH]; [simpl; ring|].
  change (Spec.big_sum f (S (S p))) with (Spec.big_sum f (S p) + f (S p)).
  rewrite IH. simpl. ring.
Qed.

Lemma big_sum_rev (f : nat -> float) (p : nat) :
  Spec.big_sum f p = Spec.big_sum (fun k => f (p - 1 - k)%nat) p.
Proof.
  induction p as [|p IH]; [reflexivity|].
  change (Spec.big_sum f (S p)) with (Spec.big_sum f p + f p).
  rewrite big_sum_shift.
  replace (S p - 1 - 0)%nat with p by lia.
  rewrite IH at 1.
  rewrite (big_sum_ext (fun k => f (S p - 1 - S k)%nat) (fun k => f (p - 1 - k)%nat))
    by (intros k Hk; f_equal; lia).
  ring.
Qed.

Lemma composite_trapezoid_ext_le (d : float) (f g : nat -> float) (m : nat) :
  (forall k, (k <= m)%nat -> f k = g k) ->
  Spec.composite_trapezoid d f m = Spec.composite_trapezoid d g m.
Proof.
  intros H. unfold Spec.composite_trapezoid.
  rewrite (big_sum_ext (fun k => f (S k)) (fun k => g (S k)))
    by (intros; apply H; lia).
  rewrite (H O), (H m) by lia. reflexivity.
Qed.

(** The composite rule does not see the direction of travel. *)
Lemma composite_trapezoid_rev (d : float) (f : nat -> float) (m : nat) :
  Spec.composite_trapezoid d f m = Spec.composite_trapezoid d (fun k => f (m - k)%nat) m.
Proof.
  unfold Spec.composite_trapezoid.
  rewrite (big_sum_rev (fun k => f (S k))).
  rewrite (big_sum_ext (fun k => f (S (m - 1 - 1 - k))) (fun k => f (m - S k)%nat))
    by (intros k Hk; f_equal; lia).
  replace (m - 0)%nat with m by lia. replace (m - m)%nat with O by lia. ring.
Qed.

Lemma cos_half_turn (u : float) : cos ((2 * PI - u) / 2) = - cos (u / 2).
Proof.
  replace ((2 * PI - u) / 2) with (- (u / 2) + PI) by field.
  now rewrite neg_cos, cos_neg.
Qed.

(** The integrand on one edge at [u] is the integrand on the other edge
    at [2 pi - u]. *)
Lemma arc_integrand_mirror (R v u : float) :
  Spec.arc_integrand R (- v) (2 * PI - u) = Spec.arc_integrand R v u.
Proof.
  rewrite !arc_integrand_closed, cos_half_turn. f_equal. field.
Qed.

Lemma u_node_mirror (n : Z) (m j : nat) :
  IZR (n - 1) = INR m -> m <> O -> (j <= m)%nat ->
  Spec.u_node n (m - j) = 2 * PI - Spec.u_node n j.
Proof.
  intros Hm Hm0 Hj. unfold Spec.u_node, Spec.du.
  rewrite minus_INR by exact Hj. rewrite Hm. field.
  now apply not_0_INR.
Qed.

Lemma edge_length_mirror (R v : float) (n : Z) :
  (2 <= n)%Z -> Spec.edge_length R n (- v) = Spec.edge_length R n v.
Proof.
  intros Hn. destruct (resolution_nat n Hn) as (m & _ & Hm1 & HI).
  unfold Spec.edge_length. rewrite Hm1.
  rewrite composite_trapezoid_rev.
  apply composite_trapezoid_ext_le. intros k Hk.
  rewrite (u_node_mirror n (S m) k) by (try exact HI; lia).
  apply arc_integrand_mirror.
Qed.

Lemma big_sum_zero (m : nat) : Spec.big_sum (fun _ => 0) m = 0.
Proof. induction m as [|m IH]; simpl; [reflexivity | rewrite IH; ring]. Qed.

Lemma surface_area_zero_width (R : float) (n : Z) : Spec.surface_area R 0 n = 0.
Proof.
  unfold Spec.surface_area.
  rewrite (composite_trapezoid_ext _ _ (fun _ => 0)).
  - unfold Spec.composite_trapezoid. rewrite big_sum_zero. field.
  - intros j. unfold Spec.composite_trapezoid, Spec.dv. unfold Rdiv. ring.
Qed.

End Reversal.

Lemma zero_width_exact (R : float) (n : Z) (self : MobiusStrip) :
  (2 <= n)%Z ->
  __init__ R 0 n = Ok self ->
  compute_surface_area self = (Ok 0, self) /\
  exists l : float,
    edge_lengths (self_R self) (self_w self) (self_u self)
                 (2 * np.pi / IZR (self_n self - 1)) = [l; l].
Proof.
  intros Hn H. rewrite init_handle in H by exact Hn. injection H as <-.
  split.
  - rewrite compute_surface_area_handle by exact Hn.
    now rewrite surface_area_zero_width.
  - cbn [handle self_R self_w self_n self_u]. unfold edge_lengths. cbn [map].
    replace (- 0 / 2) with (0 / 2) by field.
    eexists; reflexivity.
Qed.

(** C8, amended: with [w = 0] (any [R], [n >= 2]), in exact arithmetic
    [compute_surface_area] returns 0 and the two lengths computed in the
    loop of [compute_edge_length] are equal.  In binary64 the area is the
    product of [dv = 0.0] with the summed integrand: 0.0 while the
    integrand is finite (shown at [R = 3], [n = 2] and [n = 3], where the
    two loop lengths are also the same float), and [nan] once it
    overflows. *)
Theorem C8_zero_width :
  (forall (R : float) (n : Z) (self : MobiusStrip),
     (2 <= n)%Z ->
     __init__ R 0 n = Ok self ->
     compute_surface_area self = (Ok 0, self) /\
     exists l : float,
       edge_lengths (self_R self) (self_w self) (self_u self)
                    (2 * np.pi / IZR (self_n self - 1)) = [l; l]) /\
  (B64.area (B64.of_int 3) (B64.of_int 0) 2 = B64.Value (B64.of_int 0) /\
   B64.area (B64.of_int 3) (B64.of_int 0) 3 = B64.Value (B64.of_int 0) /\
   exists (u : list B64.f64) (du l : B64.f64),
     B64.grid_u 3 = B64.Value u /\ B64.du 3 = B64.Value du /\
     B64.edge_length_at (B64.of_int 3) u du
       (PrimFloat.div (B64.of_int 0) (B64.of_int 2)) = B64.Value l /\
     B64.edge_length_at (B64.of_int 3) u du
       (PrimFloat.div (PrimFloat.opp (B64.of_int 0)) (B64.of_int 2)) = B64.Value l).
Proof.
  split; [exact zero_width_exact|].
  do 2 (split; [vm_compute; reflexivity|]).
  do 3 eexists. repeat split; vm_compute; reflexivity.
Qed.

Lemma C8_zero_width_witness :
  exists self, __init__ 3 0 4 = Ok self /\ compute_surface_area self = (Ok 0, self).
Proof.
  eexists. split; [reflexivity|].
  apply (proj1 C8_zero_width 3 4%Z _ ltac:(lia) eq_refl).
Defined.

(** C10: for every [(R, w, n)] with [n >= 2] the two lengths computed in
    the loop of [compute_edge_length] are equal, since the integrand at
    [(+w/2, u)] is the integrand at [(-w/2, 2 pi - u)] and the rule is the
    same in both directions; the method returns twice either of them. *)
Theorem C10_edges_equal (R w : float) (n : Z) (self : MobiusStrip) :
  (2 <= n)%Z ->
  __init__ R w n = Ok self ->
  (forall u, arc_element R (w / 2) u = arc_element R (- w / 2) (2 * PI - u)) /\
  exists l : float,
    edge_lengths (self_R self) (self_w self) (self_u self)
                 (2 * np.pi / IZR (self_n self - 1)) = [l; l] /\
    compute_edge_length self = (Ok (2 * l), self).
Proof.
  intros Hn H. rewrite init_handle in H by exact Hn. injection H as <-.
  assert (E : Spec.edge_length R n (- w / 2) = Spec.edge_length R n (w / 2)).
  { replace (- w / 2) with (- (w / 2)) by field. now apply edge_length_mirror. }
  split.
  - intros u. rewrite !arc_element_spec.
    replace (- w / 2) with (- (w / 2)) by field.
    now rewrite arc_integrand_mirror.
  - exists (Spec.edge_length R n (w / 2)). split.
    + cbn [handle self_R self_w self_n self_u]. unfold edge_lengths. cbn [map].
      fold (Spec.du n). rewrite !edge_length_at_handle by exact Hn.
      now rewrite E.
    + rewrite compute_edge_length_handle by exact Hn. rewrite E.
      do 2 f_equal. ring.
Qed.

Lemma C10_edges_equal_witness :
  exists (self : MobiusStrip) (l : float),
    __init__ 3 1 4 = Ok self /\ compute_edge_length self = (Ok (2 * l), self).
Proof.
  eexists.
  destruct (C10_edges_equal 3 1 4 _ ltac:(lia) eq_refl) as (_ & l & _ & Hl).
  exists l. split; [reflexivity | exact Hl].
Defined.

(** ** The two coarsest resolutions *)

Section Coarse.

Variables R w : float.

Local Abbreviation a := (sqrt ((R - w / 2) ^ 2 + w ^ 2 / 16)).
Local Abbreviation b := (sqrt ((R + w / 2) ^ 2 + w ^ 2 / 16)).
Local Abbreviation c := (sqrt (R ^ 2 + w ^ 2 / 16)).

Lemma integrand_at (u v k : float) :
  cos (u / 2) = k -> Spec.area_integrand R u v = sqrt ((R + v * k) ^ 2 + v ^ 2 / 4).
Proof. intros <-. apply area_integrand_closed. Qed.

Lemma du_2 : Spec.du 2 = 2 * PI.
Proof. unfold Spec.du. change (2 - 1)%Z with 1%Z. field. Qed.

Lemma du_3 : Spec.du 3 = PI.
Proof. unfold Spec.du. change (3 - 1)%Z with 2%Z. field. Qed.

Lemma dv_2 : Spec.dv w 2 = w.
Proof. unfold Spec.dv. change (2 - 1)%Z with 1%Z. field. Qed.

Lemma dv_3 : Spec.dv w 3 = w / 2.
Proof. unfold Spec.dv. change (3 - 1)%Z with 2%Z. reflexivity. Qed.

Lemma cos_half_first (n : Z) : cos (Spec.u_node n 0 / 2) = 1.
Proof.
  unfold Spec.u_node. replace (INR 0 * Spec.du n / 2) with 0 by (simpl; field).
  apply cos_0.
Qed.

Lemma cos_half_last_2 : cos (Spec.u_node 2 1 / 2) = -1.
Proof.
  unfold Spec.u_node. rewrite du_2.
  replace (INR 1 * (2 * PI) / 2) with PI by (simpl; field).
  apply cos_PI.
Qed.

Lemma cos_half_mid_3 : cos (Spec.u_node 3 1 / 2) = 0.
Proof.
  unfold Spec.u_node. rewrite du_3.
  replace (INR 1 * PI / 2) with (PI / 2) by (simpl; field).
  apply cos_PI2.
Qed.

Lemma cos_half_last_3 : cos (Spec.u_node 3 2 / 2) = -1.
Proof.
  unfold Spec.u_node. rewrite du_3.
  replace (INR 2 * PI / 2) with PI by (simpl; field).
  apply cos_PI.
Qed.

Lemma v_first (n : Z) : Spec.v_node w n 0 = - (w / 2).
Proof. unfold Spec.v_node. simpl. field. Qed.

Lemma v_last_2 : Spec.v_node w 2 1 = w / 2.
Proof. unfold Spec.v_node. rewrite dv_2. simpl. field. Qed.

Lemma v_mid_3 : Spec.v_node w 3 1 = 0.
Proof. unfold Spec.v_node. rewrite dv_3. simpl. field. Qed.

Lemma v_last_3 : Spec.v_node w 3 2 = w / 2.
Proof. unfold Spec.v_node. rewrite dv_3. simpl. field. Qed.

(** At resolution 2 the estimate is [pi w (a + b)]. *)
Lemma surface_area_2 : Spec.surface_area R w 2 = PI * w * (a + b).
Proof.
  unfold Spec.surface_area. change (Z.to_nat (2 - 1)) with 1%nat.
  unfold Spec.composite_trapezoid. cbn [Nat.sub Spec.big_sum].
  rewrite !(integrand_at _ _ 1 (cos_half_first 2)).
  rewrite !(integrand_at _ _ (-1) cos_half_last_2).
  rewrite du_2, dv_2, v_first, v_last_2.
  replace ((R + - (w / 2) * 1) ^ 2 + (- (w / 2)) ^ 2 / 4)
    with ((R - w / 2) ^ 2 + w ^ 2 / 16) by field.
  replace ((R + w / 2 * 1) ^ 2 + (w / 2) ^ 2 / 4)
    with ((R + w / 2) ^ 2 + w ^ 2 / 16) by field.
  replace ((R + - (w / 2) * -1) ^ 2 + (- (w / 2)) ^ 2 / 4)
    with ((R + w / 2) ^ 2 + w ^ 2 / 16) by field.
  replace ((R + w / 2 * -1) ^ 2 + (w / 2) ^ 2 / 4)
    with ((R - w / 2) ^ 2 + w ^ 2 / 16) by field.
  field.
Qed.

(** At resolution 3 the estimate is [pi (w/2) (a/2 + b/2 + 2R + c)]. *)
Lemma surface_area_3 :
  0 <= R -> Spec.surface_area R w 3 = PI * (w / 2) * (a / 2 + b / 2 + 2 * R + c).
Proof.
  intros HR.
  unfold Spec.surface_area. change (Z.to_nat (3 - 1)) with 2%nat.
  unfold Spec.composite_trapezoid. cbn [Nat.sub Spec.big_sum].
  rewrite !(integrand_at _ _ 1 (cos_half_first 3)).
  rewrite !(integrand_at _ _ 0 cos_half_mid_3).
  rewrite !(integrand_at _ _ (-1) cos_half_last_3).
  rewrite du_3, dv_3, v_first, v_mid_3, v_last_3.
  replace ((R + - (w / 2) * 1) ^ 2 + (- (w / 2)) ^ 2 / 4)
    with ((R - w / 2) ^ 2 + w ^ 2 / 16) by field.
  replace ((R + w / 2 * 1) ^ 2 + (w / 2) ^ 2 / 4)
    with ((R + w / 2) ^ 2 + w ^ 2 / 16) by field.
  replace ((R + - (w / 2) * -1) ^ 2 + (- (w / 2)) ^ 2 / 4)
    with ((R + w / 2) ^ 2 + w ^ 2 / 16) by field.
  replace ((R + w / 2 * -1) ^ 2 + (w / 2) ^ 2 / 4)
    with ((R - w / 2) ^ 2 + w ^ 2 / 16) by field.
  replace ((R + - (w / 2) * 0) ^ 2 + (- (w / 2)) ^ 2 / 4)
    with (R ^ 2 + w ^ 2 / 16) by field.
  replace ((R + w / 2 * 0) ^ 2 + (w / 2) ^ 2 / 4)
    with (R ^ 2 + w ^ 2 / 16) by field.
  replace ((R + 0 * 1) ^ 2 + 0 ^ 2 / 4) with (R ^ 2) by field.
  replace ((R + 0 * 0) ^ 2 + 0 ^ 2 / 4) with (R ^ 2) by field.
  replace ((R + 0 * -1) ^ 2 + 0 ^ 2 / 4) with (R ^ 2) by field.
  rewrite (sqrt_pow2 R HR).
  field.
Qed.

Hypothesis HR : 0 < R.
Hypothesis Hw : 0 < w.

Lemma ruling_bound : R + c / 2 < 3 / 4 * (a + b).
Proof.
  pose proof (pow2_ge_0 w) as W0.
  assert (A0 : 0 <= (R - w / 2) ^ 2 + w ^ 2 / 16)
    by (pose proof (pow2_ge_0 (R - w / 2)); lra).
  assert (B0 : 0 <= (R + w / 2) ^ 2 + w ^ 2 / 16)
    by (pose proof (pow2_ge_0 (R + w / 2)); lra).
  assert (C0 : 0 <= R ^ 2 + w ^ 2 / 16)
    by (pose proof (pow2_ge_0 R); lra).
  pose proof (sqrt_pos ((R - w / 2) ^ 2 + w ^ 2 / 16)) as Ha.
  pose proof (sqrt_pos ((R + w / 2) ^ 2 + w ^ 2 / 16)) as Hb.
  pose proof (sqrt_pos (R ^ 2 + w ^ 2 / 16)) as Hc.
  pose proof (sqrt_sqrt _ A0) as Ea.
  pose proof (sqrt_sqrt _ B0) as Eb.
  pose proof (sqrt_sqrt _ C0) as Ec.
  revert Ha Hb Hc Ea Eb Ec.
  generalize a, b, c. intros x y z Ha Hb Hc Ea Eb Ec.
  assert (HcR : R < z) by nra.
  assert (Hab : 2 * z <= x + y).
  { destruct (Rle_lt_dec (2 * z) (x + y)) as [|Hlt]; [assumption | exfalso].
    assert (S1 : (x + y) * (x + y) < (2 * z) * (2 * z)) by nra.
    assert (S2 : x * y < R ^ 2 - 3 * w ^ 2 / 16) by nra.
    assert (S3 : 0 <= x * y) by nra.
    assert (S4 : (x * y) * (x * y) < (R ^ 2 - 3 * w ^ 2 / 16) * (R ^ 2 - 3 * w ^ 2 / 16))
      by nra.
    assert (S5 : (x * y) * (x * y)
                 = (R ^ 2 - 3 * w ^ 2 / 16) * (R ^ 2 - 3 * w ^ 2 / 16) + w ^ 4 / 16).
    { replace (x * y * (x * y)) with ((x * x) * (y * y)) by ring.
      rewrite Ea, Eb. field. }
    assert (S6 : 0 <= w ^ 4) by (replace (w ^ 4) with ((w * w) * (w * w)) by ring; nra).
    lra. }
  lra.
Qed.

(** Refining the grid from 2 to 3 samples per axis lowers the estimate. *)
Lemma surface_area_3_lt_2 : Spec.surface_area R w 3 < Spec.surface_area R w 2.
Proof.
  rewrite surface_area_2, surface_area_3 by lra.
  pose proof ruling_bound as HB. pose proof PI_RGT_0 as HP.
  assert (H : a / 2 + b / 2 + 2 * R + c < 2 * (a + b)) by lra.
  assert (HPw : 0 < PI * (w / 2)) by (apply Rmult_lt_0_compat; lra).
  replace (PI * w * (a + b)) with (PI * (w / 2) * (2 * (a + b))) by field.
  now apply Rmult_lt_compat_l.
Qed.

End Coarse.

(** ** Resolution and the area estimate *)

(** C7, as stated, fails: for [R = 1], [w = 2] the area computed at
    resolution 3 is strictly below the area computed at resolution 2. *)
Lemma C7_area_drops_from_2_to_3 :
  exists (self2 self3 : MobiusStrip) (area2 area3 : float),
    __init__ 1 2 2 = Ok self2 /\ __init__ 1 2 3 = Ok self3 /\
    compute_surface_area self2 = (Ok area2, self2) /\
    compute_surface_area self3 = (Ok area3, self3) /\
    area3 < area2.
Proof.
  exists (handle 1 2 2), (handle 1 2 3), (Spec.surface_area 1 2 2), (Spec.surface_area 1 2 3).
  split; [apply init_handle; lia|]. split; [apply init_handle; lia|].
  split; [apply compute_surface_area_handle; lia|].
  split; [apply compute_surface_area_handle; lia|].
  apply surface_area_3_lt_2; lra.
Qed.

(** C7, amended: for fixed [R > 0] and [w > 0], [compute_surface_area]
    returns, in exact arithmetic, a non-negative value at every resolution
    [n >= 2], and the values do not increase monotonically with [n]: for
    [R = 1], [w = 2] the value at resolution 3 is strictly smaller than the
    value at resolution 2. *)
Theorem C7_area_not_monotone :
  (forall (R w : float) (n : Z) (self : MobiusStrip),
     0 < R -> 0 < w -> (2 <= n)%Z -> __init__ R w n = Ok self ->
     exists area, compute_surface_area self = (Ok area, self) /\ 0 <= area) /\
  (forall self2 self3 area2 area3,
     __init__ 1 2 2 = Ok self2 -> __init__ 1 2 3 = Ok self3 ->
     compute_surface_area self2 = (Ok area2, self2) ->
     compute_surface_area self3 = (Ok area3, self3) ->
     area3 < area2).
Proof.
  split.
  - intros R w n self HR Hw Hn H. rewrite init_handle in H by exact Hn. injection H as <-.
    exists (Spec.surface_area R w n).
    split; [now apply compute_surface_area_handle|].
    apply surface_area_nonneg; [lra | exact Hn].
  - intros self2 self3 area2 area3 H2 H3 A2 A3.
    rewrite init_handle in H2, H3 by lia.
    injection H2 as <-. injection H3 as <-.
    rewrite compute_surface_area_handle in A2, A3 by lia.
    injection A2 as <-. injection A3 as <-.
    apply surface_area_3_lt_2; lra.
Qed.

Lemma C7_area_not_monotone_witness :
  exists (self2 self3 : MobiusStrip) (area2 area3 : float),
    __init__ 1 2 2 = Ok self2 /\ __init__ 1 2 3 = Ok self3 /\
    compute_surface_area self2 = (Ok area2, self2) /\
    compute_surface_area self3 = (Ok area3, self3) /\
    0 <= area3 < area2.
Proof.
  do 4 eexists.
  split; [reflexivity|]. split; [reflexivity|].
  split; [reflexivity|]. split; [reflexivity|].
  destruct C7_area_not_monotone as [Hpos Hlt].
  split.
  - destruct (Hpos 1 2 3%Z _ ltac:(lra) ltac:(lra) ltac:(lia) eq_refl) as (area & Ha & Hge).
    injection Ha as <-. exact Hge.
  - apply (Hlt _ _ _ _ eq_refl eq_refl eq_refl eq_refl).
Defined.


(** ** Further properties of the class *)

Section Shapes.

Lemma nth_map_lt (A B : Type) (g : A -> B) (l : list A) (k : nat) (d : A) (d' : B) :
  (k < length l)%nat -> nth k (map g l) d' = g (nth k l d).
Proof.
  intros Hk. rewrite (nth_indep _ d' (g d)) by (now rewrite length_map).
  apply map_nth.
Qed.

Lemma entry_grid (f : float -> float -> float) (u v : np.ndarray1) (i j : nat) :
  (i < length v)%nat -> (j < length u)%nat ->
  entry (map (fun vi => map (fun uj => f uj vi) u) v) i j = f (nth j u 0) (nth i v 0).
Proof.
  intros Hi Hj. unfold entry.
  rewrite (nth_map_lt _ _ _ _ _ 0) by exact Hi.
  now rewrite (nth_map_lt _ _ _ _ _ 0) by exact Hj.
Qed.

Lemma has_shape_grid (f : float -> float -> float) (u v : np.ndarray1) :
  has_shape (map (fun vi => map (fun uj => f uj vi) u) v) (length v) (length u).
Proof.
  split; [apply length_map|].
  apply Forall_forall. intros row Hrow.
  apply in_map_iff in Hrow as (vi & <- & _). apply length_map.
Qed.

Lemma has_shape_grid_sq (f : float -> float -> float) (u v : np.ndarray1) (N : nat) :
  length u = N -> length v = N ->
  has_shape (map (fun vi => map (fun uj => f uj vi) u) v) N N.
Proof.
  intros Lu Lv. pose proof (has_shape_grid f u v) as Hs.
  rewrite Lu, Lv in Hs. exact Hs.
Qed.

(** What [__init__] returns, for whatever grids numpy hands back. *)
Lemma init_inversion (R w : float) (n : Z) (self : MobiusStrip) :
  __init__ R w n = Ok self ->
  exists u v,
    np.linspace 0 (2 * np.pi) n = Ok u /\
    np.linspace (- w / 2) (w / 2) n = Ok v /\
    self = mkMobiusStrip R w n u v
             (map (fun _ => u) v)
             (map (fun vi => map (fun _ => vi) u) v)
             (Some (map (fun vi => map (fun uj => Param.x R uj vi) u) v,
                    map (fun vi => map (fun uj => Param.y R uj vi) u) v,
                    map (fun vi => map (fun uj => Param.z uj vi) u) v)).
Proof.
  unfold __init__. intros H.
  destruct (np.linspace 0 (2 * np.pi) n) as [u|e]; [|discriminate].
  destruct (np.linspace (- w / 2) (w / 2) n) as [v|e]; [|discriminate].
  exists u, v. split; [reflexivity|]. split; [reflexivity|].
  unfold np.meshgrid, _generate_mesh, bind, attr, set_mesh in H.
  cbn [self_R self_w self_n self_u self_v self_U self_V self_mesh] in H.
  rewrite !elementwise2_meshgrid in H. injection H as <-. reflexivity.
Qed.

Lemma linspace_length (a b : float) (n : Z) (y : np.ndarray1) :
  np.linspace a b n = Ok y -> (0 <= n)%Z /\ length y = Z.to_nat n.
Proof.
  intros H. destruct (Z.ltb_spec n 0) as [Hn|Hn].
  - rewrite linspace_negative in H by exact Hn. discriminate.
  - split; [exact Hn|].
    destruct (linspace_nonneg a b n Hn) as (y' & E & L).
    rewrite E in H. now injection H as <-.
Qed.

End Shapes.

(** X1: whatever resolution the constructor accepts, so also 0 and 1, the
    handle stores [R], [w] and [n] as given, [u] and [v] have [n] samples,
    [U], [V] and the three mesh arrays are [n] by [n], [U[i][j] = u[j]],
    [V[i][j] = v[i]], and mesh entry [i][j] is the position at
    [(u[j], v[i])]; the mesh is never left at [None]. *)
Theorem X1_constructed_handle (R w : float) (n : Z) (self : MobiusStrip) :
  __init__ R w n = Ok self ->
  let N := Z.to_nat n in
  (0 <= n)%Z /\
  self_R self = R /\ self_w self = w /\ self_n self = n /\
  length (self_u self) = N /\ length (self_v self) = N /\
  has_shape (self_U self) N N /\ has_shape (self_V self) N N /\
  (forall i j, (i < N)%nat -> (j < N)%nat ->
     entry (self_U self) i j = nth j (self_u self) 0 /\
     entry (self_V self) i j = nth i (self_v self) 0) /\
  exists x y z,
    self_mesh self = Some (x, y, z) /\
    has_shape x N N /\ has_shape y N N /\ has_shape z N N /\
    forall i j, (i < N)%nat -> (j < N)%nat ->
      entry x i j = Param.x R (nth j (self_u self) 0) (nth i (self_v self) 0) /\
      entry y i j = Param.y R (nth j (self_u self) 0) (nth i (self_v self) 0) /\
      entry z i j = Param.z (nth j (self_u self) 0) (nth i (self_v self) 0).
Proof.
  intros H N. subst N.
  destruct (init_inversion R w n self H) as (u & v & Hu & Hv & ->).
  apply linspace_length in Hu as [Hn Lu]. apply linspace_length in Hv as [_ Lv].
  cbn [self_R self_w self_n self_u self_v self_U self_V self_mesh].
  replace (map (fun _ : float => u) v)
    with (map (fun _ : float => map (fun uj : float => uj) u) v)
    by (apply map_ext; intros; apply map_id).
  split; [exact Hn|]. do 3 (split; [reflexivity|]).
  split; [exact Lu|]. split; [exact Lv|].
  split; [apply (has_shape_grid_sq (fun uj _ => uj)); assumption|].
  split; [apply (has_shape_grid_sq (fun _ vi => vi)); assumption|].
  split.
  - intros i j Hi Hj. rewrite <- Lv in Hi. rewrite <- Lu in Hj. split.
    + apply (entry_grid (fun uj _ => uj)); assumption.
    + apply (entry_grid (fun _ vi => vi)); assumption.
  - do 3 eexists. split; [reflexivity|].
    do 3 (split; [apply has_shape_grid_sq; assumption|]).
    intros i j Hi Hj. rewrite <- Lv in Hi. rewrite <- Lu in Hj.
    repeat split; apply entry_grid; assumption.
Qed.

Lemma X1_constructed_handle_witness :
  exists self x y z,
    __init__ 3 1 1 = Ok self /\ self_n self = 1%Z /\ length (self_u self) = 1%nat /\
    self_mesh self = Some (x, y, z) /\ has_shape x 1 1.
Proof.
  eexists.
  destruct (X1_constructed_handle 3 1 1 _ eq_refl)
    as (_ & _ & _ & Hn & Lu & _ & _ & _ & _ & x & y & z & Hm & Hx & _).
  exists x, y, z. split; [reflexivity|].
  split; [exact Hn|]. split; [exact Lu|]. split; [exact Hm | exact Hx].
Defined.

(** X2: on a handle that [__init__] returned, calling [_generate_mesh]
    again does not raise and changes nothing: it stores the mesh that is
    already there. *)
Theorem X2_regenerate_constructed (R w : float) (n : Z) (self : MobiusStrip) :
  __init__ R w n = Ok self ->
  _generate_mesh self = (Ok tt, self).
Proof.
  intros H. destruct (init_inversion R w n self H) as (u & v & _ & _ & ->).
  unfold _generate_mesh, bind, attr, set_mesh.
  cbn [self_R self_w self_n self_u self_v self_U self_V self_mesh].
  now rewrite !elementwise2_meshgrid.
Qed.

Lemma X2_regenerate_constructed_witness :
  exists self, __init__ 3 1 3 = Ok self /\ _generate_mesh self = (Ok tt, self).
Proof.
  eexists. split; [reflexivity|].
  apply (X2_regenerate_constructed 3 1 3 _ eq_refl).
Defined.

(** X3: at resolution 0 nothing raises: the grids and the mesh arrays are
    empty, [n - 1 = -1] is a valid divisor, and both estimators return 0. *)
Theorem X3_empty_grid (R w : float) (self : MobiusStrip) :
  __init__ R w 0 = Ok self ->
  self_u self = [] /\ self_v self = [] /\ self_mesh self = Some ([], [], []) /\
  compute_surface_area self = (Ok 0, self) /\
  compute_edge_length self = (Ok 0, self).
Proof.
  intros H. unfold __init__ in H. simpl in H. injection H as <-.
  do 4 (split; [reflexivity|]).
  unfold compute_edge_length, bind, attr, lift, ret, py_div.
  cbn [self_R self_w self_n self_u Z.sub Z.add Z.opp Z.eqb Z.pos_sub].
  unfold edge_lengths, edge_length_at, np.trapz. cbn. do 2 f_equal. ring.
Qed.

Lemma X3_empty_grid_witness :
  exists self, __init__ 3 1 0 = Ok self /\ compute_surface_area self = (Ok 0, self) /\
               compute_edge_length self = (Ok 0, self).
Proof.
  eexists. split; [reflexivity|].
  destruct (X3_empty_grid 3 1 _ eq_refl) as (_ & _ & _ & Ha & He).
  split; assumption.
Defined.

Section Derivatives.

Variables R u v : float.

Lemma derivable_pt_lim_value (f : float -> float) (t l l' : float) :
  l = l' -> derivable_pt_lim f t l -> derivable_pt_lim f t l'.
Proof. now intros <-. Qed.

Lemma D_half : derivable_pt_lim (fun t => t / 2) u (/ 2).
Proof.
  apply (derivable_pt_lim_ext (mult_real_fct (/ 2) id));
    [intros t; unfold mult_real_fct, id; field|].
  apply (derivable_pt_lim_value _ _ (/ 2 * 1)); [ring|].
  apply derivable_pt_lim_scal, derivable_pt_lim_id.
Qed.

Lemma D_cos_half : derivable_pt_lim (fun t => cos (t / 2)) u (- sin (u / 2) * / 2).
Proof.
  apply (derivable_pt_lim_comp (fun t => t / 2) cos); [apply D_half|].
  apply derivable_pt_lim_cos.
Qed.

Lemma D_sin_half : derivable_pt_lim (fun t => sin (t / 2)) u (cos (u / 2) * / 2).
Proof.
  apply (derivable_pt_lim_comp (fun t => t / 2) sin); [apply D_half|].
  apply derivable_pt_lim_sin.
Qed.

(** The distance from the axis, [R + v cos(u/2)], along [u]. *)
Lemma D_radius :
  derivable_pt_lim (fun t => R + v * cos (t / 2)) u (- (v / 2) * sin (u / 2)).
Proof.
  apply (derivable_pt_lim_value _ _ (0 + v * (- sin (u / 2) * / 2))); [field|].
  apply (derivable_pt_lim_plus (fct_cte R) (mult_real_fct v (fun t => cos (t / 2)))).
  - apply derivable_pt_lim_const.
  - apply derivable_pt_lim_scal, D_cos_half.
Qed.

Lemma D_x_u : derivable_pt_lim (fun t => Param.x R t v) u (Param.x_u R u v).
Proof.
  unfold Param.x, Param.x_u.
  apply (derivable_pt_lim_value _ _
           (- (v / 2) * sin (u / 2) * cos u + (R + v * cos (u / 2)) * - sin u));
    [field|].
  apply (derivable_pt_lim_mult (fun t => R + v * cos (t / 2)) cos);
    [apply D_radius | apply derivable_pt_lim_cos].
Qed.

Lemma D_y_u : derivable_pt_lim (fun t => Param.y R t v) u (Param.y_u R u v).
Proof.
  unfold Param.y, Param.y_u.
  apply (derivable_pt_lim_value _ _
           (- (v / 2) * sin (u / 2) * sin u + (R + v * cos (u / 2)) * cos u));
    [field|].
  apply (derivable_pt_lim_mult (fun t => R + v * cos (t / 2)) sin);
    [apply D_radius | apply derivable_pt_lim_sin].
Qed.

Lemma D_z_u : derivable_pt_lim (fun t => Param.z t v) u (Param.z_u u v).
Proof.
  unfold Param.z, Param.z_u.
  apply (derivable_pt_lim_value _ _ (v * (cos (u / 2) * / 2))); [field|].
  apply (derivable_pt_lim_scal (fun t => sin (t / 2))), D_sin_half.
Qed.

(** Along [v] every coordinate is affine. *)
Lemma D_affine (p q : float) : derivable_pt_lim (fun t => (p + t * q)) v q.
Proof.
  apply (derivable_pt_lim_value _ _ (0 + q * 1)); [ring|].
  apply (derivable_pt_lim_ext (fct_cte p + mult_real_fct q id)%F);
    [intros t; unfold plus_fct, fct_cte, mult_real_fct, id; ring|].
  apply derivable_pt_lim_plus; [apply derivable_pt_lim_const|].
  apply derivable_pt_lim_scal, derivable_pt_lim_id.
Qed.

Lemma D_x_v : derivable_pt_lim (fun t => Param.x R u t) v (Param.x_v u).
Proof.
  unfold Param.x, Param.x_v.
  apply (derivable_pt_lim_ext (fun t => R * cos u + t * (cos (u / 2) * cos u)));
    [intros t; ring|].
  apply D_affine.
Qed.

Lemma D_y_v : derivable_pt_lim (fun t => Param.y R u t) v (Param.y_v u).
Proof.
  unfold Param.y, Param.y_v.
  apply (derivable_pt_lim_ext (fun t => R * sin u + t * (cos (u / 2) * sin u)));
    [intros t; ring|].
  apply D_affine.
Qed.

Lemma D_z_v : derivable_pt_lim (fun t => Param.z u t) v (Param.z_v u).
Proof.
  unfold Param.z, Param.z_v.
  apply (derivable_pt_lim_ext (fun t => 0 + t * sin (u / 2)));
    [intros t; ring|].
  apply D_affine.
Qed.

End Derivatives.

(** X4: the six expressions the source calls partial derivatives are the
    partial derivatives of the three position expressions it evaluates for
    the mesh, at every [(u, v)] and for every [R]; they are what
    [compute_surface_area] crosses and what [compute_edge_length] takes the
    norm of. *)
Theorem X4_partials_are_derivatives (R u v : float) :
  (derivable_pt_lim (fun t => Param.x R t v) u (Param.x_u R u v) /\
   derivable_pt_lim (fun t => Param.y R t v) u (Param.y_u R u v) /\
   derivable_pt_lim (fun t => Param.z t v) u (Param.z_u u v)) /\
  (derivable_pt_lim (fun t => Param.x R u t) v (Param.x_v u) /\
   derivable_pt_lim (fun t => Param.y R u t) v (Param.y_v u) /\
   derivable_pt_lim (fun t => Param.z u t) v (Param.z_v u)) /\
  surface_element R u v
  = sqrt ((Param.y_u R u v * Param.z_v u - Param.z_u u v * Param.y_v u) ^ 2 +
          (Param.z_u u v * Param.x_v u - Param.x_u R u v * Param.z_v u) ^ 2 +
          (Param.x_u R u v * Param.y_v u - Param.y_u R u v * Param.x_v u) ^ 2) /\
  arc_element R v u
  = sqrt (Param.x_u R u v ^ 2 + Param.y_u R u v ^ 2 + Param.z_u u v ^ 2).
Proof.
  split; [split; [apply D_x_u | split; [apply D_y_u | apply D_z_u]]|].
  split; [split; [apply D_x_v | split; [apply D_y_v | apply D_z_v]]|].
  split; reflexivity.
Qed.


Section Scaling.

Lemma big_sum_scal (k : float) (f : nat -> float) (m : nat) :
  Spec.big_sum (fun i => k * f i) m = k * Spec.big_sum f m.
Proof. induction m as [|m IH]; simpl; [ring | rewrite IH; ring]. Qed.

Lemma composite_trapezoid_scal (k d : float) (f : nat -> float) (m : nat) :
  Spec.composite_trapezoid d (fun i => k * f i) m = k * Spec.composite_trapezoid d f m.
Proof.
  unfold Spec.composite_trapezoid.
  rewrite (big_sum_scal k (fun i => f (S i))). field.
Qed.

Lemma composite_trapezoid_step (k d : float) (f : nat -> float) (m : nat) :
  Spec.composite_trapezoid (k * d) f m = k * Spec.composite_trapezoid d f m.
Proof. unfold Spec.composite_trapezoid. ring. Qed.

Lemma dv_scal (k w : float) (n : Z) : Spec.dv (k * w) n = k * Spec.dv w n.
Proof. unfold Spec.dv, Rdiv. ring. Qed.

Lemma v_node_scal (k w : float) (n : Z) (i : nat) :
  Spec.v_node (k * w) n i = k * Spec.v_node w n i.
Proof. unfold Spec.v_node. rewrite dv_scal. field. Qed.

Lemma sqrt_scal (k X : float) : 0 <= k -> 0 <= X -> sqrt (k ^ 2 * X) = k * sqrt X.
Proof.
  intros Hk HX. rewrite sqrt_mult_alt by apply pow2_ge_0.
  now rewrite sqrt_pow2.
Qed.

Lemma ruling_nonneg (p v : float) : 0 <= p ^ 2 + v ^ 2 / 4.
Proof. pose proof (pow2_ge_0 p). pose proof (pow2_ge_0 v). lra. Qed.

Lemma area_integrand_scal (k R u v : float) :
  0 <= k -> Spec.area_integrand (k * R) u (k * v) = k * Spec.area_integrand R u v.
Proof.
  intros Hk. rewrite !area_integrand_closed.
  rewrite <- sqrt_scal by (try assumption; apply ruling_nonneg).
  f_equal. field.
Qed.

Lemma arc_integrand_scal (k R v u : float) :
  0 <= k -> Spec.arc_integrand (k * R) (k * v) u = k * Spec.arc_integrand R v u.
Proof.
  intros Hk. rewrite !arc_integrand_closed.
  rewrite <- sqrt_scal by (try assumption; apply ruling_nonneg).
  f_equal. field.
Qed.

Lemma surface_area_scal (k R w : float) (n : Z) :
  0 <= k -> Spec.surface_area (k * R) (k * w) n = k ^ 2 * Spec.surface_area R w n.
Proof.
  intros Hk. unfold Spec.surface_area.
  rewrite (composite_trapezoid_ext _ _
             (fun j => k ^ 2 * Spec.composite_trapezoid (Spec.dv w n)
                         (fun i => Spec.area_integrand R (Spec.u_node n j)
                                     (Spec.v_node w n i)) (Z.to_nat (n - 1)))).
  - apply composite_trapezoid_scal.
  - intros j. rewrite dv_scal, composite_trapezoid_step.
    rewrite (composite_trapezoid_ext _ _
               (fun i => k * Spec.area_integrand R (Spec.u_node n j) (Spec.v_node w n i)))
      by (intros i; rewrite v_node_scal; now apply area_integrand_scal).
    rewrite composite_trapezoid_scal. ring.
Qed.

Lemma edge_length_scal (k R v : float) (n : Z) :
  0 <= k -> Spec.edge_length (k * R) n (k * v) = k * Spec.edge_length R n v.
Proof.
  intros Hk. unfold Spec.edge_length.
  rewrite (composite_trapezoid_ext _ _
             (fun j => k * Spec.arc_integrand R v (Spec.u_node n j)))
    by (intros j; now apply arc_integrand_scal).
  apply composite_trapezoid_scal.
Qed.

End Scaling.

Lemma scaling_exact (k R w : float) (n : Z) (self self_k : MobiusStrip) :
  0 <= k -> (2 <= n)%Z ->
  __init__ R w n = Ok self ->
  __init__ (k * R) (k * w) n = Ok self_k ->
  exists area len : float,
    compute_surface_area self = (Ok area, self) /\
    compute_surface_area self_k = (Ok (k ^ 2 * area), self_k) /\
    compute_edge_length self = (Ok len, self) /\
    compute_edge_length self_k = (Ok (k * len), self_k).
Proof.
  intros Hk Hn H Hk'. rewrite init_handle in H, Hk' by exact Hn.
  injection H as <-. injection Hk' as <-.
  exists (Spec.surface_area R w n),
         (Spec.edge_length R n (w / 2) + Spec.edge_length R n (- w / 2)).
  rewrite !compute_surface_area_handle, !compute_edge_length_handle by exact Hn.
  split; [reflexivity|]. split; [now rewrite surface_area_scal|].
  split; [reflexivity|].
  replace (k * w / 2) with (k * (w / 2)) by field.
  replace (- (k * w) / 2) with (k * (- w / 2)) by field.
  rewrite !edge_length_scal by exact Hk. do 2 f_equal. ring.
Qed.

Section Signs.

Lemma v_node_mirror (w : float) (n : Z) (m i : nat) :
  IZR (n - 1) = INR m -> m <> O -> (i <= m)%nat ->
  Spec.v_node w n (m - i) = - Spec.v_node w n i.
Proof.
  intros Hm Hm0 Hi. unfold Spec.v_node, Spec.dv.
  rewrite minus_INR by exact Hi. rewrite Hm. field.
  now apply not_0_INR.
Qed.








Lemma composite_trapezoid_pos (d : float) (f : nat -> float) (m : nat) :
  0 < d -> (forall k, 0 <= f k) -> 0 < f O -> 0 < Spec.composite_trapezoid d f m.
Proof.
  intros Hd Hf H0. unfold Spec.composite_trapezoid.
  apply Rmult_lt_0_compat; [exact Hd|].
  pose proof (big_sum_nonneg (fun k => f (S k)) (m - 1) (fun k => Hf (S k))).
  pose proof (Hf m). lra.
Qed.

Lemma ruling_pos (p v : float) : v <> 0 -> 0 < sqrt (p ^ 2 + v ^ 2 / 4).
Proof.
  intros Hv. apply sqrt_lt_R0.
  pose proof (pow2_ge_0 p).
  assert (0 < v ^ 2) by (destruct (Rtotal_order v 0) as [|[|]]; [nra | contradiction | nra]).
  lra.
Qed.

End Signs.

Section Positivity.

Lemma dv_pos (w : float) (n : Z) : 0 < w -> (2 <= n)%Z -> 0 < Spec.dv w n.
Proof.
  intros Hw Hn. unfold Spec.dv. apply Rdiv_lt_0_compat; [exact Hw|].
  now apply IZR_pred_pos.
Qed.

Lemma surface_area_pos (R w : float) (n : Z) :
  0 < w -> (2 <= n)%Z -> 0 < Spec.surface_area R w n.
Proof.
  intros Hw Hn. unfold Spec.surface_area.
  assert (Hin : forall j i, 0 <= Spec.area_integrand R (Spec.u_node n j) (Spec.v_node w n i))
    by (intros; apply sqrt_pos).
  assert (Hcol : forall j,
             0 < Spec.composite_trapezoid (Spec.dv w n)
                   (fun i => Spec.area_integrand R (Spec.u_node n j) (Spec.v_node w n i))
                   (Z.to_nat (n - 1))).
  { intros j. apply composite_trapezoid_pos; [now apply dv_pos | apply Hin |].
    rewrite area_integrand_closed. apply ruling_pos.
    rewrite v_first. lra. }
  apply composite_trapezoid_pos; [now apply du_pos | | apply Hcol].
  intros j. apply Rlt_le, Hcol.
Qed.

Lemma edge_length_pos (R v : float) (n : Z) :
  v <> 0 -> (2 <= n)%Z -> 0 < Spec.edge_length R n v.
Proof.
  intros Hv Hn. unfold Spec.edge_length.
  apply composite_trapezoid_pos; [now apply du_pos | intros; apply sqrt_pos |].
  rewrite arc_integrand_closed. now apply ruling_pos.
Qed.

End Positivity.




Lemma metrics_positive_exact (R w : float) (n : Z) (self : MobiusStrip) :
  0 < w -> (2 <= n)%Z ->
  __init__ R w n = Ok self ->
  exists area len : float,
    compute_surface_area self = (Ok area, self) /\ 0 < area /\
    compute_edge_length self = (Ok len, self) /\ 0 < len.
Proof.
  intros Hw Hn H. rewrite init_handle in H by exact Hn. injection H as <-.
  exists (Spec.surface_area R w n),
         (Spec.edge_length R n (w / 2) + Spec.edge_length R n (- w / 2)).
  rewrite compute_surface_area_handle, compute_edge_length_handle by exact Hn.
  split; [reflexivity|]. split; [now apply surface_area_pos|].
  split; [reflexivity|].
  pose proof (edge_length_pos R (w / 2) n ltac:(lra) Hn).
  pose proof (edge_length_pos R (- w / 2) n ltac:(lra) Hn). lra.
Qed.

Section Bounds.

Lemma big_sum_const (c : float) (p : nat) : Spec.big_sum (fun _ => c) p = INR p * c.
Proof.
  induction p as [|p IH]; [simpl; ring|].
  cbn [Spec.big_sum]. rewrite IH, S_INR. ring.
Qed.

Lemma big_sum_bounds (lo hi : float) (f : nat -> float) (p : nat) :
  (forall k, (k < p)%nat -> lo <= f k <= hi) ->
  INR p * lo <= Spec.big_sum f p <= INR p * hi.
Proof.
  induction p as [|p IH]; intros H; [simpl; lra|].
  cbn [Spec.big_sum]. rewrite S_INR.
  destruct IH as [IHl IHh]; [intros k Hk; apply H; lia|].
  destruct (H p ltac:(lia)) as [Hl Hh]. lra.
Qed.

Lemma composite_trapezoid_bounds (d lo hi : float) (f : nat -> float) (m : nat) :
  0 <= d -> (1 <= m)%nat ->
  (forall k, (k <= m)%nat -> lo <= f k <= hi) ->
  d * INR m * lo <= Spec.composite_trapezoid d f m <= d * INR m * hi.
Proof.
  intros Hd Hm H. unfold Spec.composite_trapezoid.
  destruct (big_sum_bounds lo hi (fun k => f (S k)) (m - 1)) as [Sl Sh];
    [intros k Hk; apply H; lia|].
  rewrite minus_INR in Sl, Sh by exact Hm. simpl INR in Sl, Sh.
  destruct (H O ltac:(lia)) as [Hl0 Hh0]. destruct (H m ltac:(lia)) as [Hlm Hhm].
  split.
  - replace (d * INR m * lo) with (d * (INR m * lo)) by ring.
    apply Rmult_le_compat_l; [exact Hd | lra].
  - replace (d * INR m * hi) with (d * (INR m * hi)) by ring.
    apply Rmult_le_compat_l; [exact Hd | lra].
Qed.

Lemma composite_trapezoid_const (d c : float) (m : nat) :
  (1 <= m)%nat -> Spec.composite_trapezoid d (fun _ => c) m = d * INR m * c.
Proof.
  intros Hm. unfold Spec.composite_trapezoid.
  rewrite big_sum_const, minus_INR by exact Hm. simpl INR. field.
Qed.

Lemma du_span (n : Z) (m : nat) :
  IZR (n - 1) = INR m -> m <> O -> Spec.du n * INR m = 2 * PI.
Proof.
  intros Hm Hm0. unfold Spec.du. rewrite Hm. field. now apply not_0_INR.
Qed.

Lemma dv_span (w : float) (n : Z) (m : nat) :
  IZR (n - 1) = INR m -> m <> O -> Spec.dv w n * INR m = w.
Proof.
  intros Hm Hm0. unfold Spec.dv. rewrite Hm. field. now apply not_0_INR.
Qed.

Lemma v_node_range (w : float) (n : Z) (m i : nat) :
  0 <= w -> IZR (n - 1) = INR m -> m <> O -> (i <= m)%nat ->
  - (w / 2) <= Spec.v_node w n i <= w / 2.
Proof.
  intros Hw Hm Hm0 Hi. unfold Spec.v_node, Spec.dv. rewrite Hm.
  assert (Hpos : 0 < INR m) by (apply lt_0_INR; lia).
  assert (H0 : 0 <= INR i) by apply pos_INR.
  assert (H1 : INR i <= INR m) by (apply le_INR; exact Hi).
  assert (Ht : 0 <= INR i / INR m <= 1).
  { split.
    - apply Rmult_le_pos; [exact H0 | apply Rlt_le, Rinv_0_lt_compat, Hpos].
    - apply (Rmult_le_reg_r (INR m)); [exact Hpos|].
      unfold Rdiv. rewrite Rmult_assoc, Rinv_l by lra. lra. }
  replace (INR i * (w / INR m)) with (w * (INR i / INR m)) by (field; lra).
  destruct Ht as [Ta Tb]. split; nra.
Qed.

Lemma sqrt_le_bound (X hi : float) : 0 <= hi -> X <= hi ^ 2 -> sqrt X <= hi.
Proof.
  intros Hh HX. rewrite <- (sqrt_pow2 hi Hh). now apply sqrt_le_1_alt.
Qed.

Lemma sqrt_ge_bound (X lo : float) : lo <= 0 \/ lo ^ 2 <= X -> lo <= sqrt X.
Proof.
  intros [Hl|HX].
  - pose proof (sqrt_pos X). lra.
  - destruct (Rle_lt_dec lo 0) as [Hl|Hl]; [pose proof (sqrt_pos X); lra|].
    rewrite <- (sqrt_pow2 lo) by lra. now apply sqrt_le_1_alt.
Qed.

(** The common integrand stays between [R - w/2] and [R + 3w/4] on the
    strip. *)
Lemma ruling_bounds (R w v c : float) :
  0 <= R -> - (w / 2) <= v <= w / 2 -> -1 <= c <= 1 ->
  R - w / 2 <= sqrt ((R + v * c) ^ 2 + v ^ 2 / 4) <= R + 3 * w / 4.
Proof.
  intros HR [Va Vb] [Ca Cb].
  assert (Hw : 0 <= w) by lra.
  assert (Pa : - (w / 2) <= v * c) by nra.
  assert (Pb : v * c <= w / 2) by nra.
  assert (Vsq : v ^ 2 <= (w / 2) ^ 2) by nra.
  split.
  - apply sqrt_ge_bound.
    destruct (Rle_lt_dec (R - w / 2) 0) as [Hl|Hl]; [now left | right].
    pose proof (pow2_ge_0 v). nra.
  - apply sqrt_le_bound; [lra|]. nra.
Qed.

Lemma area_integrand_bounds (R w u v : float) :
  0 <= R -> - (w / 2) <= v <= w / 2 ->
  R - w / 2 <= Spec.area_integrand R u v <= R + 3 * w / 4.
Proof.
  intros HR Hv. rewrite area_integrand_closed.
  apply ruling_bounds; [assumption | assumption | apply COS_bound].
Qed.

Lemma surface_area_bounds (R w : float) (n : Z) :
  0 <= R -> 0 <= w -> (2 <= n)%Z ->
  2 * PI * w * (R - w / 2) <= Spec.surface_area R w n <= 2 * PI * w * (R + 3 * w / 4).
Proof.
  intros HR Hw Hn. destruct (resolution_nat n Hn) as (m & _ & Hm1 & HI).
  unfold Spec.surface_area. rewrite Hm1.
  pose proof (du_span n (S m) HI ltac:(lia)) as Hdu.
  pose proof (dv_span w n (S m) HI ltac:(lia)) as Hdv.
  assert (Hdv0 : 0 <= Spec.dv w n).
  { unfold Spec.dv. apply Rmult_le_pos; [exact Hw|].
    apply Rlt_le, Rinv_0_lt_compat, IZR_pred_pos, Hn. }
  replace (2 * PI * w * (R - w / 2))
    with (Spec.du n * INR (S m) * (w * (R - w / 2))) by (rewrite Hdu; ring).
  replace (2 * PI * w * (R + 3 * w / 4))
    with (Spec.du n * INR (S m) * (w * (R + 3 * w / 4))) by (rewrite Hdu; ring).
  apply composite_trapezoid_bounds; [apply Rlt_le, du_pos, Hn | lia |].
  intros j _.
  pose proof (composite_trapezoid_bounds (Spec.dv w n) (R - w / 2) (R + 3 * w / 4)
                (fun i => Spec.area_integrand R (Spec.u_node n j) (Spec.v_node w n i))
                (S m) Hdv0 ltac:(lia)) as B.
  rewrite Hdv in B. apply B.
  intros i Hi. apply area_integrand_bounds; [exact HR|].
  apply (v_node_range w n (S m) i); try assumption; lia.
Qed.

Lemma edge_length_bounds (R w v : float) (n : Z) :
  0 <= R -> - (w / 2) <= v <= w / 2 -> (2 <= n)%Z ->
  2 * PI * (R - w / 2) <= Spec.edge_length R n v <= 2 * PI * (R + 3 * w / 4).
Proof.
  intros HR Hv Hn. destruct (resolution_nat n Hn) as (m & _ & Hm1 & HI).
  unfold Spec.edge_length. rewrite Hm1.
  rewrite <- (du_span n (S m) HI ltac:(lia)).
  apply composite_trapezoid_bounds; [apply Rlt_le, du_pos, Hn | lia |].
  intros j _. rewrite arc_integrand_closed.
  apply ruling_bounds; [assumption | assumption | apply COS_bound].
Qed.

Lemma edge_length_zero_width (R : float) (n : Z) :
  (2 <= n)%Z -> Spec.edge_length R n 0 = 2 * PI * Rabs R.
Proof.
  intros Hn. destruct (resolution_nat n Hn) as (m & _ & Hm1 & HI).
  unfold Spec.edge_length. rewrite Hm1.
  rewrite (composite_trapezoid_ext _ _ (fun _ => Rabs R)).
  - rewrite composite_trapezoid_const by lia.
    now rewrite (du_span n (S m) HI ltac:(lia)).
  - intros j. rewrite arc_integrand_closed, <- sqrt_Rsqr_abs.
    f_equal. unfold Rsqr. field.
Qed.

End Bounds.

Lemma zero_width_edge_length_exact (R : float) (n : Z) (self : MobiusStrip) :
  (2 <= n)%Z ->
  __init__ R 0 n = Ok self ->
  edge_lengths (self_R self) (self_w self) (self_u self)
               (2 * np.pi / IZR (self_n self - 1))
  = [2 * PI * Rabs R; 2 * PI * Rabs R] /\
  compute_edge_length self = (Ok (4 * PI * Rabs R), self).
Proof.
  intros Hn H. rewrite init_handle in H by exact Hn. injection H as <-.
  split.
  - cbn [handle self_R self_w self_n self_u]. unfold edge_lengths. cbn [map].
    fold (Spec.du n). rewrite !edge_length_at_handle by exact Hn.
    replace (- 0 / 2) with 0 by field. replace (0 / 2) with 0 by field.
    now rewrite edge_length_zero_width.
  - rewrite compute_edge_length_handle by exact Hn.
    replace (- 0 / 2) with 0 by field. replace (0 / 2) with 0 by field.
    rewrite edge_length_zero_width by exact Hn. do 2 f_equal. ring.
Qed.

Lemma resolution_independent_bounds_exact (R w : float) (n : Z) (self : MobiusStrip) :
  0 <= R -> 0 <= w -> (2 <= n)%Z ->
  __init__ R w n = Ok self ->
  exists area len : float,
    compute_surface_area self = (Ok area, self) /\
    2 * PI * w * (R - w / 2) <= area <= 2 * PI * w * (R + 3 * w / 4) /\
    compute_edge_length self = (Ok len, self) /\
    4 * PI * (R - w / 2) <= len <= 4 * PI * (R + 3 * w / 4).
Proof.
  intros HR Hw Hn H. rewrite init_handle in H by exact Hn. injection H as <-.
  exists (Spec.surface_area R w n),
         (Spec.edge_length R n (w / 2) + Spec.edge_length R n (- w / 2)).
  rewrite compute_surface_area_handle, compute_edge_length_handle by exact Hn.
  split; [reflexivity|]. split; [now apply surface_area_bounds|].
  split; [reflexivity|].
  pose proof (edge_length_bounds R w (w / 2) n HR ltac:(lra) Hn).
  pose proof (edge_length_bounds R w (- w / 2) n HR ltac:(lra) Hn).
  lra.
Qed.

Section Coarsest.


End Coarsest.



Section Seam.

Lemma handle_mesh_entries (R w : float) (n : Z) (x y z : np.ndarray2) (i j : nat) :
  self_mesh (handle R w n) = Some (x, y, z) ->
  (i < Z.to_nat n)%nat -> (j < Z.to_nat n)%nat ->
  entry x i j = Param.x R (Spec.u_node n j) (Spec.v_node w n i) /\
  entry y i j = Param.y R (Spec.u_node n j) (Spec.v_node w n i) /\
  entry z i j = Param.z (Spec.u_node n j) (Spec.v_node w n i).
Proof.
  cbn [handle self_mesh]. intros Hm Hi Hj. injection Hm as <- <- <-.
  rewrite !grid_table. rewrite !(entry_table _ _ _ i j) by assumption.
  repeat split.
Qed.




End Seam.


(** X14: the mesh stays in a box.  For [R >= 0], [w >= 0] and [n >= 2]
    every mesh point has [|x| <= R + w/2], [|y| <= R + w/2] and
    [|z| <= w/2]. *)
Theorem X14_mesh_bounding_box (R w : float) (n : Z) (self : MobiusStrip)
        (x y z : np.ndarray2) :
  0 <= R -> 0 <= w -> (2 <= n)%Z ->
  __init__ R w n = Ok self ->
  self_mesh self = Some (x, y, z) ->
  forall i j, (i < Z.to_nat n)%nat -> (j < Z.to_nat n)%nat ->
    - (R + w / 2) <= entry x i j <= R + w / 2 /\
    - (R + w / 2) <= entry y i j <= R + w / 2 /\
    - (w / 2) <= entry z i j <= w / 2.
Proof.
  intros HR Hw Hn H Hm i j Hi Hj.
  rewrite init_handle in H by exact Hn. injection H as <-.
  destruct (resolution_nat n Hn) as (m & HN & Hm1 & HI).
  destruct (handle_mesh_entries R w n x y z i j Hm Hi Hj) as (-> & -> & ->).
  unfold Param.x, Param.y, Param.z.
  destruct (v_node_range w n (S m) i Hw HI ltac:(lia) ltac:(lia)) as [Va Vb].
  destruct (COS_bound (Spec.u_node n j / 2)) as [Ca Cb].
  destruct (SIN_bound (Spec.u_node n j / 2)) as [Sa Sb].
  destruct (COS_bound (Spec.u_node n j)) as [Ca' Cb'].
  destruct (SIN_bound (Spec.u_node n j)) as [Sa' Sb'].
  revert Va Vb Ca Cb Sa Sb Ca' Cb' Sa' Sb'.
  generalize (Spec.v_node w n i) (cos (Spec.u_node n j / 2)) (sin (Spec.u_node n j / 2))
             (cos (Spec.u_node n j)) (sin (Spec.u_node n j)).
  intros v c s c' s' Va Vb Ca Cb Sa Sb Ca' Cb' Sa' Sb'.
  assert (Pa : - (w / 2) <= v * c) by nra.
  assert (Pb : v * c <= w / 2) by nra.
  assert (Qa : - (R + w / 2) <= R + v * c) by lra.
  assert (Qb : R + v * c <= R + w / 2) by lra.
  revert Qa Qb. generalize (R + v * c). intros p Qa Qb.
  repeat split; nra.
Qed.

Lemma X14_mesh_bounding_box_witness :
  exists (self : MobiusStrip) (x y z : np.ndarray2),
    __init__ 3 1 3 = Ok self /\ self_mesh self = Some (x, y, z) /\
    - (3 + 1 / 2) <= entry x 1 2 <= 3 + 1 / 2.
Proof.
  do 4 eexists. split; [reflexivity|]. split; [reflexivity|].
  destruct (X14_mesh_bounding_box 3 1 3 _ _ _ _ ltac:(lra) ltac:(lra) ltac:(lia)
              eq_refl eq_refl 1%nat 2%nat) as (Hx & _); [simpl; lia | simpl; lia|].
  exact Hx.
Defined.

Lemma grid_order_and_symmetry_exact (R w : float) (n : Z) (self : MobiusStrip) :
  (2 <= n)%Z ->
  __init__ R w n = Ok self ->
  let last := Z.to_nat (n - 1) in
  (forall i j, (i < j)%nat -> (j <= last)%nat ->
     nth i (self_u self) 0 < nth j (self_u self) 0 /\
     (0 < w -> nth i (self_v self) 0 < nth j (self_v self) 0)) /\
  (forall i, (i <= last)%nat ->
     nth (last - i) (self_u self) 0 = 2 * PI - nth i (self_u self) 0 /\
     nth (last - i) (self_v self) 0 = - nth i (self_v self) 0).
Proof.
  intros Hn H last. subst last.
  rewrite init_handle in H by exact Hn. injection H as <-.
  destruct (resolution_nat n Hn) as (m & HN & Hm1 & HI).
  cbn [handle self_u self_v]. rewrite HN, Hm1. split.
  - intros i j Hij Hj. rewrite !nth_table by lia.
    assert (Hlt : INR i < INR j) by (apply lt_INR; exact Hij).
    split.
    + unfold Spec.u_node. apply Rmult_lt_compat_r; [now apply du_pos | exact Hlt].
    + intros Hw. unfold Spec.v_node.
      pose proof (dv_pos w n Hw Hn) as Hd.
      assert (INR i * Spec.dv w n < INR j * Spec.dv w n)
        by (apply Rmult_lt_compat_r; assumption).
      lra.
  - intros i Hi. rewrite !nth_table by lia. split.
    + apply u_node_mirror; [exact HI | lia | exact Hi].
    + apply v_node_mirror; [exact HI | lia | exact Hi].
Qed.

(** ** Where binary64 departs from exact arithmetic *)

(** C5, as stated, fails in the last bits: at [n = 4] the last two angle
    samples of [np.linspace(0, 2 pi, 4)] differ by 2.0943951023931957 while
    [du] is 2.0943951023931953, and for [w = 1] the last two width samples
    do not differ by [dv] either. *)
Lemma C5_spacing_rounds_in_binary64 :
  exists (u v : list B64.f64) (du dv : B64.f64),
    B64.grid_u 4 = B64.Value u /\ B64.du 4 = B64.Value du /\
    B64.grid_v (B64.of_int 1) 4 = B64.Value v /\
    B64.dv (B64.of_int 1) 4 = B64.Value dv /\
    PrimFloat.eqb (PrimFloat.sub (nth 3 u du) (nth 2 u du)) du = false /\
    PrimFloat.eqb (PrimFloat.sub (nth 3 v dv) (nth 2 v dv)) dv = false /\
    B64.uniformly_spaced du u = false /\ B64.uniformly_spaced dv v = false.
Proof.
  do 4 eexists.
  do 4 (split; [vm_compute; reflexivity|]).
  repeat split; vm_compute; reflexivity.
Qed.


(** C8, as stated, fails for a large radius: at [R = 1e200], [w = 0],
    [n = 2] the integrand is [inf], line 71 multiplies it by [dv = 0.0],
    and [compute_surface_area] returns [nan], not 0. *)
Lemma C8_zero_width_large_radius_nan :
  B64.area B64.huge (B64.of_int 0) 2 = B64.Value PrimFloat.nan /\
  PrimFloat.eqb PrimFloat.nan (B64.of_int 0) = false.
Proof. split; vm_compute; reflexivity. Qed.

(** X6: in exact arithmetic the estimators are homogeneous: scaling [R]
    and [w] by the same [k >= 0] at a fixed resolution [n >= 2] multiplies
    the computed area by [k^2] and the computed edge length by [k].  In
    binary64 the law breaks where the squares underflow: at
    [R = w = 1e-200], [n = 2] the computed area is 0.0, although at the
    [1e200]-fold parameters [R = w = 1.0] it is positive. *)
Theorem X6_scaling :
  (forall (k R w : float) (n : Z) (self self_k : MobiusStrip),
     0 <= k -> (2 <= n)%Z ->
     __init__ R w n = Ok self ->
     __init__ (k * R) (k * w) n = Ok self_k ->
     exists area len : float,
       compute_surface_area self = (Ok area, self) /\
       compute_surface_area self_k = (Ok (k ^ 2 * area), self_k) /\
       compute_edge_length self = (Ok len, self) /\
       compute_edge_length self_k = (Ok (k * len), self_k)) /\
  (B64.area B64.tiny B64.tiny 2 = B64.Value (B64.of_int 0) /\
   exists a : B64.f64,
     B64.area (PrimFloat.mul B64.huge B64.tiny) (PrimFloat.mul B64.huge B64.tiny) 2
     = B64.Value a /\
     PrimFloat.ltb (B64.of_int 0) a = true).
Proof.
  split; [exact scaling_exact|].
  split; [vm_compute; reflexivity|].
  eexists. split; vm_compute; reflexivity.
Qed.

Lemma X6_scaling_witness :
  exists (self self_k : MobiusStrip) (area len : float),
    __init__ 3 1 4 = Ok self /\ __init__ (2 * 3) (2 * 1) 4 = Ok self_k /\
    compute_surface_area self_k = (Ok (2 ^ 2 * area), self_k) /\
    compute_edge_length self_k = (Ok (2 * len), self_k).
Proof.
  do 2 eexists.
  destruct (proj1 X6_scaling 2 3 1 4%Z _ _ ltac:(lra) ltac:(lia) eq_refl eq_refl)
    as (area & len & _ & Ha & _ & Hl).
  exists area, len. split; [reflexivity|]. split; [reflexivity|].
  split; assumption.
Defined.



(** X9: in exact arithmetic, for [w > 0] and [n >= 2] both estimates are
    strictly positive whatever the radius is, zero and negative radii
    included.  In binary64 they are zero where the squares underflow: at
    [R = w = 1e-200], [n = 2] both estimators return 0.0. *)
Theorem X9_metrics_positive :
  (forall (R w : float) (n : Z) (self : MobiusStrip),
     0 < w -> (2 <= n)%Z ->
     __init__ R w n = Ok self ->
     exists area len : float,
       compute_surface_area self = (Ok area, self) /\ 0 < area /\
       compute_edge_length self = (Ok len, self) /\ 0 < len) /\
  (B64.area B64.tiny B64.tiny 2 = B64.Value (B64.of_int 0) /\
   B64.edge B64.tiny B64.tiny 2 = B64.Value (B64.of_int 0)).
Proof.
  split; [exact metrics_positive_exact|].
  split; vm_compute; reflexivity.
Qed.

Lemma X9_metrics_positive_witness :
  exists (self : MobiusStrip) (area len : float),
    __init__ 0 1 2 = Ok self /\
    compute_surface_area self = (Ok area, self) /\ 0 < area /\
    compute_edge_length self = (Ok len, self) /\ 0 < len.
Proof.
  eexists.
  destruct (proj1 X9_metrics_positive 0 1 2%Z _ ltac:(lra) ltac:(lia) eq_refl)
    as (area & len & H).
  exists area, len. split; [reflexivity | exact H].
Defined.

(** X10: in exact arithmetic, with [w = 0] and [n >= 2] the edge length is
    [4 pi |R|] at every resolution: each of the two loop turns integrates
    the constant [|R|] over [0, 2 pi], so the centre circle is counted
    twice.  In binary64 the square of [R] can overflow: at [R = 1e200],
    [w = 0], [n = 2] the method returns [inf]. *)
Theorem X10_zero_width_edge_length :
  (forall (R : float) (n : Z) (self : MobiusStrip),
     (2 <= n)%Z ->
     __init__ R 0 n = Ok self ->
     edge_lengths (self_R self) (self_w self) (self_u self)
                  (2 * np.pi / IZR (self_n self - 1))
     = [2 * PI * Rabs R; 2 * PI * Rabs R] /\
     compute_edge_length self = (Ok (4 * PI * Rabs R), self)) /\
  B64.edge B64.huge (B64.of_int 0) 2 = B64.Value PrimFloat.infinity.
Proof.
  split; [exact zero_width_edge_length_exact|].
  vm_compute; reflexivity.
Qed.

Lemma X10_zero_width_edge_length_witness :
  exists self, __init__ (- 3) 0 5 = Ok self /\
               compute_edge_length self = (Ok (4 * PI * Rabs (- 3)), self).
Proof.
  eexists. split; [reflexivity|].
  apply (proj1 X10_zero_width_edge_length (- 3) 5%Z _ ltac:(lia) eq_refl).
Defined.

(** X11: in exact arithmetic, for [R >= 0], [w >= 0] and every resolution
    [n >= 2] the two estimates stay inside fixed bounds: the area between
    [2 pi w (R - w/2)] and [2 pi w (R + 3w/4)], the edge length between
    [4 pi (R - w/2)] and [4 pi (R + 3w/4)].  In binary64 the upper bounds
    are broken by overflow: at [R = 1e200], [w = 1], [n = 2] both
    estimators return [inf]. *)
Theorem X11_resolution_independent_bounds :
  (forall (R w : float) (n : Z) (self : MobiusStrip),
     0 <= R -> 0 <= w -> (2 <= n)%Z ->
     __init__ R w n = Ok self ->
     exists area len : float,
       compute_surface_area self = (Ok area, self) /\
       2 * PI * w * (R - w / 2) <= area <= 2 * PI * w * (R + 3 * w / 4) /\
       compute_edge_length self = (Ok len, self) /\
       4 * PI * (R - w / 2) <= len <= 4 * PI * (R + 3 * w / 4)) /\
  (B64.area B64.huge (B64.of_int 1) 2 = B64.Value PrimFloat.infinity /\
   B64.edge B64.huge (B64.of_int 1) 2 = B64.Value PrimFloat.infinity).
Proof.
  split; [exact resolution_independent_bounds_exact|].
  split; vm_compute; reflexivity.
Qed.

Lemma X11_resolution_independent_bounds_witness :
  exists (self : MobiusStrip) (area len : float),
    __init__ 3 1 4 = Ok self /\
    compute_surface_area self = (Ok area, self) /\
    2 * PI * 1 * (3 - 1 / 2) <= area <= 2 * PI * 1 * (3 + 3 * 1 / 4) /\
    compute_edge_length self = (Ok len, self) /\
    4 * PI * (3 - 1 / 2) <= len <= 4 * PI * (3 + 3 * 1 / 4).
Proof.
  eexists.
  destruct (proj1 X11_resolution_independent_bounds 3 1 4%Z _
              ltac:(lra) ltac:(lra) ltac:(lia) eq_refl) as (area & len & H).
  exists area, len. split; [reflexivity | exact H].
Defined.



(** X16: in exact arithmetic, on a handle built with [n >= 2] the angle
    samples increase strictly, the width samples increase strictly when
    [w > 0], and both grids are symmetric: [u[n-1-j] = 2 pi - u[j]] and
    [v[n-1-i] = - v[i]].  In binary64 the symmetry holds only up to
    rounding: for [w = 1], [n = 4] the sample [v[2]] is not [-v[1]]. *)
Theorem X16_grid_order_and_symmetry :
  (forall (R w : float) (n : Z) (self : MobiusStrip),
     (2 <= n)%Z ->
     __init__ R w n = Ok self ->
     let last := Z.to_nat (n - 1) in
     (forall i j, (i < j)%nat -> (j <= last)%nat ->
        nth i (self_u self) 0 < nth j (self_u self) 0 /\
        (0 < w -> nth i (self_v self) 0 < nth j (self_v self) 0)) /\
     (forall i, (i <= last)%nat ->
        nth (last - i) (self_u self) 0 = 2 * PI - nth i (self_u self) 0 /\
        nth (last - i) (self_v self) 0 = - nth i (self_v self) 0)) /\
  (exists v : list B64.f64,
     B64.grid_v (B64.of_int 1) 4 = B64.Value v /\
     PrimFloat.eqb (nth 2 v B64.tiny) (PrimFloat.opp (nth 1 v B64.tiny)) = false /\
     B64.antisymmetric v = false).
Proof.
  split; [exact grid_order_and_symmetry_exact|].
  eexists. split; [vm_compute; reflexivity|].
  split; vm_compute; reflexivity.
Qed.

Lemma X16_grid_order_and_symmetry_witness :
  exists self, __init__ 3 1 3 = Ok self /\
    nth 0 (self_u self) 0 < nth 2 (self_u self) 0 /\
    nth 2 (self_v self) 0 = - nth 0 (self_v self) 0.
Proof.
  eexists. split; [reflexivity|].
  destruct (proj1 X16_grid_order_and_symmetry 3 1 3%Z _ ltac:(lia) eq_refl) as [Ho Hs].
  split.
  - apply (Ho 0%nat 2%nat); simpl; lia.
  - apply (Hs 0%nat). simpl; lia.
Defined.
